(** * vscode-firefox-debug: the protocol bridge

    A shallow embedding of the grip bookkeeping of [ThreadAdapter]
    (src/adapter/thread.ts), of [VariableAdapter.fromGrip]
    (src/adapter/variable.ts) and of the actor registry of
    [DebugConnection], with the properties the specification states
    about them. *)

From stdpp Require Import gmap strings list fin_maps pretty sorting.
From Stdlib Require OrderedTypeEx.

Local Open Scope string_scope.
Local Open Scope list_scope.

(** ** Promise-returning code

    An [async] function is run to completion between two suspension
    points on one control flow, so it is a function of the world it
    starts in: it settles as resolved or rejected and leaves a world
    behind.  A rejection keeps the mutations made before it. *)

Module Async.

Inductive outcome (A : Type) : Type :=
  | Resolved (a : A)
  | Rejected (err : string).
Arguments Resolved {A} a.
Arguments Rejected {A} err.

Definition M (W A : Type) : Type := W → outcome A * W.

Definition ret {W A} (a : A) : M W A := λ w, (Resolved a, w).

Definition reject {W A} (err : string) : M W A := λ w, (Rejected err, w).

Definition bind {W A B} (m : M W A) (k : A → M W B) : M W B :=
  λ w, match m w with
       | (Resolved a, w') => k a w'
       | (Rejected e, w') => (Rejected e, w')
       end.

(** [try { m } catch (err) { h err }], and [p.catch(h)] on a promise. *)
Definition catch {W A} (m : M W A) (h : string → M W A) : M W A :=
  λ w, match m w with
       | (Resolved a, w') => (Resolved a, w')
       | (Rejected e, w') => h e w'
       end.

Definition modify {W} (f : W → W) : M W unit := λ w, (Resolved tt, f w).

Definition gets {W A} (f : W → A) : M W A := λ w, (Resolved (f w), w).

(** [xs.forEach(f)] *)
Fixpoint forEach {W A} (f : A → M W unit) (xs : list A) : M W unit :=
  match xs with
  | [] => ret tt
  | x :: xs' => bind (f x) (λ _, forEach f xs')
  end.

(** [await Promise.all(xs.map(f))]: every [f x] is started, in order;
    the first rejection, if any, is the one that is thrown. *)
Fixpoint all {W A B} (f : A → M W B) (xs : list A) : M W (list B) :=
  match xs with
  | [] => ret []
  | x :: xs' =>
      λ w, match f x w with
           | (Resolved b, w') =>
               bind (all f xs') (λ bs, ret (b :: bs)) w'
           | (Rejected e, w') => (Rejected e, snd (all f xs' w'))
           end
  end.

End Async.

Import Async.

Notation "'let!' x ':=' m 'in' k" := (Async.bind m (λ x, k))
  (at level 10, x name, m at level 100, k at level 200, only parsing).
Notation "'do!' m 'in' k" := (Async.bind m (λ _, k))
  (at level 10, m at level 100, k at level 200, only parsing).

(** ** Protocol data *)

Module FirefoxDebugProtocol.

(** Modelled from the spec: the protocol typings ([FirefoxDebugProtocol],
    a declaration file) are not part of the sources.  A grip that is
    not a JSON primitive is an object with a [type] discriminator; the
    other fields are the ones [fromGrip] and
    [getOrCreateObjectGripAdapter] read after casting: [initial] of a
    long string, [name] of a symbol, [class] and [actor] of an object. *)
Record ComplexGrip : Type := {
  type : string;
  initial : string;
  name : string;
  class : string;
  actor : string
}.

Definition ObjectGrip : Type := ComplexGrip.

End FirefoxDebugProtocol.

(** ** Objects the thread adapter works with *)

(** The classes [ObjectGripAdapter], [ObjectGripActorProxy], [FrameAdapter]
    and [ScopeAdapter] are not part of the sources.  An object is known by
    its [address] (JavaScript object identity).  The fields thread.ts and
    variable.ts read are never assigned after construction, so they travel
    with the reference; the only mutable part of a grip proxy, whether
    [dispose] has run, is kept in the world ([disposed], below). *)

Module ObjectGripActorProxy.
(** Modelled from the spec: the proxy of a remote object actor, which is
    not in the sources; its identity is the remote-assigned name. *)
Record t : Type := { name : string }.
End ObjectGripActorProxy.

Module ObjectGripAdapter.
(** Modelled from the spec: an object-grip proxy, which is not in the
    sources, has a remote actor name and a lifetime class; the debug
    session gives it the id under which the editor asks for its
    variables. *)
Record t : Type := {
  address : nat;
  actor : ObjectGripActorProxy.t;
  isThreadLifetime : bool;
  variablesProviderId : nat
}.

(** Modelled from the spec: the missing constructor
    [new ObjectGripAdapter(objectGrip, threadLifetime, threadAdapter)].  The
    actor is the one the grip names, the lifetime class is the
    [threadLifetime] argument, and the id is fresh. *)
Definition new (address : nat) (objectGrip : FirefoxDebugProtocol.ObjectGrip)
    (threadLifetime : bool) : t :=
  {| address := address;
     actor := {| ObjectGripActorProxy.name :=
                   FirefoxDebugProtocol.actor objectGrip |};
     isThreadLifetime := threadLifetime;
     variablesProviderId := address |}.

(** [objectGripAdapter.actor.name] *)
Definition actorName (a : t) : string := ObjectGripActorProxy.name (actor a).
End ObjectGripAdapter.

Module FrameAdapter.
(** Modelled from the spec: a frame proxy, which is not in the sources, is
    an ephemeral object created while paused; it knows the object-grip
    proxies of its scopes ([getObjectGripAdapters]). *)
Record t : Type := {
  address : nat;
  getObjectGripAdapters : list ObjectGripAdapter.t
}.
End FrameAdapter.

Module ScopeAdapter.
(** Modelled from the spec: a scope proxy, which is not in the sources, is
    an ephemeral object created while paused. *)
Record t : Type := { address : nat }.
End ScopeAdapter.

(** The lifetime class of a proxy, as the spec names it. *)
Inductive Lifetime : Type := PauseLifetime | ThreadLifetime.

Definition lifetime (a : ObjectGripAdapter.t) : Lifetime :=
  if ObjectGripAdapter.isThreadLifetime a then ThreadLifetime else PauseLifetime.

(** ** The thread adapter (src/adapter/thread.ts) *)

(** The fields of [ThreadAdapter] that the grip bookkeeping touches. *)
Record ThreadAdapter : Type := {
  frames : list FrameAdapter.t;
  scopes : list ScopeAdapter.t;
  objectGripAdaptersByActorName : gmap string ObjectGripAdapter.t;
  pauseLifetimeObjects : list ObjectGripAdapter.t
}.

(** What one run leaves behind for an observer: the steps of
    [disposePauseLifetimeAdapters] and the requests sent to the peer,
    oldest first. *)
Inductive Event : Type :=
| GripAdapterDisposed (a : ObjectGripAdapter.t)
| IndexEntryDeleted (actorName : string)
| PauseLifetimeObjectsCleared
| ScopeAdapterDisposed (s : ScopeAdapter.t)
| ScopesCleared
| FrameAdapterDisposed (f : FrameAdapter.t)
| FramesCleared
| ReleaseManyRequested (actors : list string)
| ExtendLifetimeRequested (actorName : string).

(** The world of one thread: the adapter's fields, the object-grip
    proxies constructed for it so far (the heap), the addresses on which
    [dispose] has run, and the journal. *)
Record World : Type := {
  thread : ThreadAdapter;
  constructed : list ObjectGripAdapter.t;
  disposed : gset nat;
  journal : list Event
}.

(** The remote peer: its answer to a bulk release and to a
    lifetime-extension request ([None] is success, [Some err] an error
    reply, which rejects the request's promise). *)
Record Peer : Type := {
  releaseMany_reply : list string → option string;
  extendLifetime_reply : string → option string
}.

Definition new_ThreadAdapter : ThreadAdapter :=
  {| frames := []; scopes := [];
     objectGripAdaptersByActorName := ∅;
     pauseLifetimeObjects := [] |}.

Definition new_World : World :=
  {| thread := new_ThreadAdapter; constructed := []; disposed := ∅; journal := [] |}.

Definition set_thread (f : ThreadAdapter → ThreadAdapter) (w : World) : World :=
  {| thread := f (thread w); constructed := constructed w;
     disposed := disposed w; journal := journal w |}.

Definition emit (e : Event) (w : World) : World :=
  {| thread := thread w; constructed := constructed w;
     disposed := disposed w; journal := journal w ++ [e] |}.

(** [new ObjectGripAdapter(objectGrip, threadLifetime, this)] *)
Definition construct (objectGrip : FirefoxDebugProtocol.ObjectGrip)
    (threadLifetime : bool) (w : World) : ObjectGripAdapter.t * World :=
  let a := ObjectGripAdapter.new (length (constructed w)) objectGrip threadLifetime in
  (a, {| thread := thread w; constructed := constructed w ++ [a];
         disposed := disposed w; journal := journal w |}).

(** [this.objectGripAdaptersByActorName.set(k, a)] *)
Definition index_set (k : string) (a : ObjectGripAdapter.t) (t : ThreadAdapter) : ThreadAdapter :=
  {| frames := frames t; scopes := scopes t;
     objectGripAdaptersByActorName := <[k := a]> (objectGripAdaptersByActorName t);
     pauseLifetimeObjects := pauseLifetimeObjects t |}.

(** [this.objectGripAdaptersByActorName.delete(k)] *)
Definition index_delete (k : string) (t : ThreadAdapter) : ThreadAdapter :=
  {| frames := frames t; scopes := scopes t;
     objectGripAdaptersByActorName := delete k (objectGripAdaptersByActorName t);
     pauseLifetimeObjects := pauseLifetimeObjects t |}.

Definition set_pauseLifetimeObjects (l : list ObjectGripAdapter.t)
    (t : ThreadAdapter) : ThreadAdapter :=
  {| frames := frames t; scopes := scopes t;
     objectGripAdaptersByActorName := objectGripAdaptersByActorName t;
     pauseLifetimeObjects := l |}.

Definition set_scopes (l : list ScopeAdapter.t) (t : ThreadAdapter) : ThreadAdapter :=
  {| frames := frames t; scopes := l;
     objectGripAdaptersByActorName := objectGripAdaptersByActorName t;
     pauseLifetimeObjects := pauseLifetimeObjects t |}.

Definition set_frames (l : list FrameAdapter.t) (t : ThreadAdapter) : ThreadAdapter :=
  {| frames := l; scopes := scopes t;
     objectGripAdaptersByActorName := objectGripAdaptersByActorName t;
     pauseLifetimeObjects := pauseLifetimeObjects t |}.

(** thread.ts, [getOrCreateObjectGripAdapter]: look the actor name up; only
    when it is absent construct a proxy, index it and, if it is not
    thread-lifetime, push it on the release list. *)
Definition getOrCreateObjectGripAdapter (objectGrip : FirefoxDebugProtocol.ObjectGrip)
    (threadLifetime : bool) (w : World) : ObjectGripAdapter.t * World :=
  match objectGripAdaptersByActorName (thread w) !! FirefoxDebugProtocol.actor objectGrip with
  | Some objectGripAdapter => (objectGripAdapter, w)
  | None =>
      let '(objectGripAdapter, w1) := construct objectGrip threadLifetime w in
      let w2 := set_thread (index_set (FirefoxDebugProtocol.actor objectGrip)
                              objectGripAdapter) w1 in
      let w3 := if negb threadLifetime
                then set_thread (λ t, set_pauseLifetimeObjects
                                        (pauseLifetimeObjects t ++ [objectGripAdapter]) t) w2
                else w2 in
      (objectGripAdapter, w3)
  end.

(** thread.ts, [registerScopeAdapter] *)
Definition registerScopeAdapter (scopeAdapter : ScopeAdapter.t) (w : World) : World :=
  set_thread (λ t, set_scopes (scopes t ++ [scopeAdapter]) t) w.

(** thread.ts, [fetchAllStackFrames], [this.frames.push(frameAdapter)] *)
Definition pushFrameAdapter (frameAdapter : FrameAdapter.t) (w : World) : World :=
  set_thread (λ t, set_frames (frames t ++ [frameAdapter]) t) w.

(** Modelled from the spec: [objectGripAdapter.dispose()], of the missing
    class, marks the proxy disposed (locally unusable). *)
Definition dispose (a : ObjectGripAdapter.t) (w : World) : World :=
  emit (GripAdapterDisposed a)
    {| thread := thread w; constructed := constructed w;
       disposed := {[ObjectGripAdapter.address a]} ∪ disposed w;
       journal := journal w |}.

(** [this.actor.releaseMany(actors)] *)
Definition releaseMany (peer : Peer) (actors : list string) : M World unit :=
  do! modify (emit (ReleaseManyRequested actors)) in
  match releaseMany_reply peer actors with
  | None => ret tt
  | Some err => reject err
  end.

(** [objectGripAdapter.actor.extendLifetime()] *)
Definition extendLifetime (peer : Peer) (a : ObjectGripAdapter.t) : M World unit :=
  do! modify (emit (ExtendLifetimeRequested (ObjectGripAdapter.actorName a))) in
  match extendLifetime_reply peer (ObjectGripAdapter.actorName a) with
  | None => ret tt
  | Some err => reject err
  end.

(** thread.ts, [disposePauseLifetimeAdapters] *)
Definition disposePauseLifetimeAdapters (peer : Peer) : M World unit :=
  let! objectGripActorsToRelease :=
    gets (λ w, ObjectGripAdapter.actorName <$> pauseLifetimeObjects (thread w)) in
  let! objs := gets (λ w, pauseLifetimeObjects (thread w)) in
  do! forEach (λ objectGripAdapter,
        do! modify (dispose objectGripAdapter) in
        do! modify (set_thread (index_delete (ObjectGripAdapter.actorName objectGripAdapter))) in
        modify (emit (IndexEntryDeleted (ObjectGripAdapter.actorName objectGripAdapter))))
      objs in
  do! modify (set_thread (set_pauseLifetimeObjects [])) in
  do! modify (emit PauseLifetimeObjectsCleared) in
  let! scs := gets (λ w, scopes (thread w)) in
  do! forEach (λ scopeAdapter, modify (emit (ScopeAdapterDisposed scopeAdapter))) scs in
  do! modify (set_thread (set_scopes [])) in
  do! modify (emit ScopesCleared) in
  let! frs := gets (λ w, frames (thread w)) in
  do! forEach (λ frameAdapter, modify (emit (FrameAdapterDisposed frameAdapter))) frs in
  do! modify (set_thread (set_frames [])) in
  do! modify (emit FramesCleared) in
  if bool_decide (0 < length objectGripActorsToRelease)
  then catch (releaseMany peer objectGripActorsToRelease) (λ err, ret tt)
  else ret tt.

(** ** Variables (src/adapter/variable.ts) *)

(** The [Variable] class of vscode-debugadapter, as [getVariable] fills it. *)
Module DebugVariable.
Record t : Type := {
  name : string;
  value : string;
  variablesReference : option nat
}.
End DebugVariable.

Module VariableAdapter.
Record t : Type := {
  varname : string;
  value : string;
  objectGripAdapter : option ObjectGripAdapter.t
}.

(** [new VariableAdapter(varname, value)] leaves the third field undefined. *)
Definition new (varname value : string) : t :=
  {| varname := varname; value := value; objectGripAdapter := None |}.

Definition getVariable (v : t) : DebugVariable.t :=
  {| DebugVariable.name := varname v;
     DebugVariable.value := value v;
     DebugVariable.variablesReference :=
       match objectGripAdapter v with
       | Some a => Some (ObjectGripAdapter.variablesProviderId a)
       | None => None
       end |}.
End VariableAdapter.

Section Grips.

(** JavaScript numbers and their [toString()].  A number grip is an IEEE
    double and its rendering is the shortest decimal that reads back to
    it; both are taken as given here. *)
Variable Number : Type.
Variable Number_toString : Number → string.

(** [FirefoxDebugProtocol.Grip = boolean | number | string | ComplexGrip] *)
Inductive Grip : Type :=
  | BooleanGrip (b : bool)
  | NumberGrip (n : Number)
  | StringGrip (s : string)
  | Complex (g : FirefoxDebugProtocol.ComplexGrip).

(** The character that the template [`"${grip}"`] puts around a string. *)
Definition double_quote : string :=
  String (Ascii.Ascii false true false false false true false false) EmptyString.

Definition Boolean_toString (b : bool) : string :=
  if b then "true" else "false".

(** variable.ts, [VariableAdapter.fromGrip].  The [switch] compares
    [grip.type] with the case labels in order; [log.warn] in the default
    case only writes to the log. *)
Definition fromGrip (varname : string) (grip : Grip) (threadLifetime : bool)
    (w : World) : VariableAdapter.t * World :=
  match grip with
  | BooleanGrip b => (VariableAdapter.new varname (Boolean_toString b), w)
  | NumberGrip n => (VariableAdapter.new varname (Number_toString n), w)
  | StringGrip s => (VariableAdapter.new varname (double_quote +:+ s +:+ double_quote), w)
  | Complex g =>
      let ty := FirefoxDebugProtocol.type g in
      if bool_decide (ty ∈ ["null"; "undefined"; "Infinity"; "-Infinity"; "NaN"; "-0"])
      then (VariableAdapter.new varname ty, w)
      else if bool_decide (ty = "longString")
      then (VariableAdapter.new varname (FirefoxDebugProtocol.initial g), w)
      else if bool_decide (ty = "symbol")
      then (VariableAdapter.new varname (FirefoxDebugProtocol.name g), w)
      else if bool_decide (ty = "object")
      then
        let objectGrip : FirefoxDebugProtocol.ObjectGrip := g in
        let vartype := FirefoxDebugProtocol.class objectGrip in
        let '(objectGripAdapter, w') :=
          getOrCreateObjectGripAdapter objectGrip threadLifetime w in
        ({| VariableAdapter.varname := varname;
            VariableAdapter.value := vartype;
            VariableAdapter.objectGripAdapter := Some objectGripAdapter |}, w')
      else (VariableAdapter.new varname ty, w)
  end.

(** thread.ts, [variableFromGrip] *)
Definition variableFromGrip (grip : option Grip) (threadLifetime : bool)
    (w : World) : VariableAdapter.t * World :=
  match grip with
  | Some grip => fromGrip EmptyString grip threadLifetime w
  | None => (VariableAdapter.new EmptyString "undefined", w)
  end.

(** A synchronous call inside promise-returning code. *)
Definition sync {A} (f : World → A * World) : M World A :=
  λ w, let '(a, w') := f w in (Resolved a, w').

(** thread.ts, the post-action [fetchAllStackFrames] hands to
    [runOnPausedThread] *)
Definition fetchAllStackFrames_postAction (peer : Peer)
    (frameAdapters : list FrameAdapter.t) : M World unit :=
  let objectGripAdapters :=
    concat (FrameAdapter.getObjectGripAdapters <$> frameAdapters) in
  do! all (λ objectGripAdapter,
             catch (extendLifetime peer objectGripAdapter) (λ err, ret tt))
          objectGripAdapters in
  ret tt.

(** thread.ts, the post-action of [fetchVariables];
    [isThreadLifetime] is [variablesProvider.isThreadLifetime]. *)
Definition fetchVariables_postAction (peer : Peer) (isThreadLifetime : bool)
    (variableAdapters : list VariableAdapter.t) : M World unit :=
  let objectGripAdapters := omap VariableAdapter.objectGripAdapter variableAdapters in
  if negb isThreadLifetime
  then
    do! all (λ objectGripAdapter,
               catch (extendLifetime peer objectGripAdapter) (λ err, ret tt))
            objectGripAdapters in
    ret tt
  else ret tt.

(** thread.ts, the post-action [evaluate] hands to [coordinator.evaluate] *)
Definition evaluate_postAction (peer : Peer)
    (variableAdapter : VariableAdapter.t) : M World unit :=
  let objectGripAdapter := VariableAdapter.objectGripAdapter variableAdapter in
  match objectGripAdapter with
  | Some objectGripAdapter => extendLifetime peer objectGripAdapter
  | None => ret tt
  end.

(** Modelled from the spec: [ThreadCoordinator] is not part of the
    sources.  Of [evaluate] and [consoleEvaluate] the spec says that the
    remote evaluation runs inside a relaxed pause and that a grip it
    produces is registered before that pause ends; of a post-action, that
    it runs after the action and before the result is released to the
    caller.  [remoteEvaluate] is the peer's answer to an expression
    ([None]: no result grip). *)
Definition ThreadCoordinator_evaluate {A}
    (remoteEvaluate : string → option string → option Grip)
    (expr frameActorName : string)
    (convert : option Grip → World → A * World)
    (postprocess : A → M World unit) : M World A :=
  let! result := sync (convert (remoteEvaluate expr (Some frameActorName))) in
  do! postprocess result in
  ret result.

(** Modelled from the spec: [consoleEvaluate] of the same missing class;
    the peer's answer is converted, and there is no post-action. *)
Definition ThreadCoordinator_consoleEvaluate {A}
    (remoteEvaluate : string → option string → option Grip)
    (expr : string) (frameActorName : option string)
    (convert : option Grip → World → A * World) : M World A :=
  sync (convert (remoteEvaluate expr frameActorName)).

(** thread.ts, [evaluate] *)
Definition evaluate (peer : Peer)
    (remoteEvaluate : string → option string → option Grip)
    (expr : string) (frameActorName : option string) : M World DebugVariable.t :=
  let! variableAdapter :=
    match frameActorName with
    | Some frameActorName =>
        ThreadCoordinator_evaluate remoteEvaluate expr frameActorName
          (λ grip, variableFromGrip grip false)
          (evaluate_postAction peer)
    | None =>
        ThreadCoordinator_consoleEvaluate remoteEvaluate expr None
          (λ grip, variableFromGrip grip true)
    end in
  ret (VariableAdapter.getVariable variableAdapter).

End Grips.

Arguments BooleanGrip {Number} b.
Arguments NumberGrip {Number} n.
Arguments StringGrip {Number} s.
Arguments Complex {Number} g.

(** ** The connection and its actor registry (DebugConnection) *)

Module DebugConnection.

(** Modelled from the spec: the interface [ActorProxy] is not part of the
    sources.  A proxy is an object ([address]) with the remote-assigned
    [name] of its actor and a response handler, [receiveResponse]. *)
Record ActorProxy : Type := { name : string; address : nat }.

(** An inbound message: the sender and the rest of the packet. *)
Record Response : Type := { from : string; payload : string }.

(** [Map<string, ActorProxy>]: the entries in insertion order, the way
    ECMAScript keeps a Map.  That no key occurs twice is not built into
    the type; it is proved of the registry below. *)
Definition ActorMap : Type := list (string * ActorProxy).

Fixpoint Map_has (m : ActorMap) (k : string) : bool :=
  match m with
  | [] => false
  | (k', _) :: m' => if bool_decide (k' = k) then true else Map_has m' k
  end.

Fixpoint Map_get (m : ActorMap) (k : string) : option ActorProxy :=
  match m with
  | [] => None
  | (k', v) :: m' => if bool_decide (k' = k) then Some v else Map_get m' k
  end.

(** [set] overwrites the value of an entry with the same key, in place,
    and appends a new entry otherwise. *)
Fixpoint Map_set (k : string) (v : ActorProxy) (m : ActorMap) : ActorMap :=
  match m with
  | [] => [(k, v)]
  | (k', v') :: m' =>
      if bool_decide (k' = k) then (k', v) :: m' else (k', v') :: Map_set k v m'
  end.

(** [delete] removes the entry found for the key. *)
Fixpoint Map_delete (k : string) (m : ActorMap) : ActorMap :=
  match m with
  | [] => []
  | (k', v') :: m' =>
      if bool_decide (k' = k) then m' else (k', v') :: Map_delete k m'
  end.

(** What the message handler does with a message. *)
Inductive Effect : Type :=
| LogDebug (response : Response)
| LogError (response : Response)
| ReceiveResponse (proxy : ActorProxy) (response : Response)
| ThrowTypeError.

(** The handler the constructor installs on the transport's ['message']
    event.  [get(..)!] of an absent key would call a method on
    [undefined]. *)
Definition onMessage (isDebugEnabled : bool) (actors : ActorMap)
    (response : Response) : list Effect :=
  if Map_has actors (from response) then
    (if isDebugEnabled then [LogDebug response] else []) ++
    match Map_get actors (from response) with
    | Some proxy => [ReceiveResponse proxy response]
    | None => [ThrowTypeError]
    end
  else [LogError response].

Definition register (actor : ActorProxy) (actors : ActorMap) : ActorMap :=
  Map_set (name actor) actor actors.

Definition unregister (actor : ActorProxy) (actors : ActorMap) : ActorMap :=
  Map_delete (name actor) actors.

(** [getOrCreate]: the factory is a closure that may itself use the
    connection, so it is a function of the registry it finds and returns
    the one it leaves.  The result is what [get] gives ([None] for
    [undefined]) or what the factory made. *)
Definition getOrCreate (actorName : string)
    (createActor : ActorMap → ActorProxy * ActorMap)
    (actors : ActorMap) : option ActorProxy * ActorMap :=
  if Map_has actors actorName then (Map_get actors actorName, actors)
  else let '(proxy, actors') := createActor actors in (Some proxy, actors').

(** A caller's use of the registry. *)
Inductive Call : Type :=
| Register (actor : ActorProxy)
| Unregister (actor : ActorProxy).

Definition call (actors : ActorMap) (c : Call) : ActorMap :=
  match c with
  | Register actor => register actor actors
  | Unregister actor => unregister actor actors
  end.

(** The actor name a call is about. *)
Definition call_name (c : Call) : string :=
  match c with
  | Register actor => name actor
  | Unregister actor => name actor
  end.

(** The registry after a sequence of calls on a fresh connection, whose
    constructor starts from [new Map]; the root actor proxy it then
    creates can reach the registry only through these calls. *)
Definition after (calls : list Call) : ActorMap := foldl call [] calls.

End DebugConnection.

(** ** Pausing and resuming *)

Module PauseCoordinator.

(** [ThreadCoordinator] and [ThreadPauseCoordinator] are not part of the
    sources; thread.ts forwards [interrupt], [resume] and the step calls
    to them, and calls the pause coordinator itself once, in [init].  This
    module follows sections 3, 4.3 and 4.4 of the spec. *)

(** Modelled from the spec: the states of a thread. *)
Inductive ThreadState : Type := Running | Interrupting | Paused | Resuming.

(** Modelled from the spec: why a pause was asked for, ["auto"] or
    ["userRequest"]; a user request is the stronger one. *)
Inductive Reason : Type := Auto | UserRequest.

(** Modelled from the spec: the stronger of two reasons. *)
Definition stronger (r1 r2 : Reason) : Reason :=
  match r1, r2 with
  | Auto, Auto => Auto
  | _, _ => UserRequest
  end.

(** Modelled from the spec: the requests a coordinator sends to the
    remote thread. *)
Inductive Message : Type := InterruptMessage | ResumeMessage.

(** Modelled from the spec: what a step makes visible, a message on the
    wire or the settling of a caller's promise. *)
Inductive Output : Type :=
| Sent (m : Message)
| Resolves (caller : nat)
| Fails (caller : nat).

(** Modelled from the spec: what the coordinator keeps for a thread: its
    state, the reason noted, the callers waiting for the interrupt or the
    resume in flight, and the interrupts queued behind a resume. *)
Record Thread : Type := {
  state : ThreadState;
  reason : Reason;
  interruptWaiters : list nat;
  resumeWaiters : list nat;
  queuedInterrupts : list nat
}.

(** Modelled from the spec: a thread with nothing pending, in one of the
    two states that wait for no answer of the peer. *)
Definition idle (paused : bool) : Thread :=
  {| state := if paused then Paused else Running; reason := Auto;
     interruptWaiters := []; resumeWaiters := []; queuedInterrupts := [] |}.

(** Modelled from the spec: the calls made on the coordinator, by callers
    ([requestInterrupt], [requestResume]) and when the remote thread has
    answered. *)
Inductive Input : Type :=
| RequestInterrupt (caller : nat) (r : Reason)
| RequestResume (caller : nat)
| NotifyInterrupted
| NotifyInterruptFailed
| NotifyResumed
| NotifyResumeFailed.

(** Modelled from the spec: one input to the coordinator of a thread.
    [requestInterrupt]: on a thread that is already interrupted it returns
    at once, noting the stronger of the two reasons; while a resume is in
    flight the interrupt is queued until the resume completes; otherwise
    the interrupt is issued and the caller blocks until [notifyInterrupted]
    or [notifyInterruptFailed]; concurrent callers await the operation in
    flight instead of issuing a second one.  [requestResume]: a caller
    waits on a pending resume instead of issuing a second one, and the
    request fails with a wrong-state condition when the thread is not
    paused.  A rejected request fails its callers and the state reverts to
    the last confirmed one.  An answer nobody waits for is ignored.

    [init] of thread.ts awaits [requestInterrupt] before it attaches the
    thread and calls [notifyInterrupted] itself, so there the request
    returns before the notification.  Of the cases above only the first, a
    thread that counts as interrupted already, returns without an answer
    of the peer; the notification that follows then finds nobody waiting.
    Which threads count as interrupted when a run starts is left open, see
    [start]. *)
Definition step (t : Thread) (i : Input) : Thread * list Output :=
  match i, state t with
  | RequestInterrupt c r, Paused =>
      ({| state := Paused; reason := stronger (reason t) r;
          interruptWaiters := interruptWaiters t; resumeWaiters := resumeWaiters t;
          queuedInterrupts := queuedInterrupts t |}, [Resolves c])
  | RequestInterrupt c r, Resuming =>
      ({| state := Resuming;
          reason := match queuedInterrupts t with [] => r | _ => stronger (reason t) r end;
          interruptWaiters := interruptWaiters t; resumeWaiters := resumeWaiters t;
          queuedInterrupts := queuedInterrupts t ++ [c] |}, [])
  | RequestInterrupt c r, Interrupting =>
      ({| state := Interrupting; reason := stronger (reason t) r;
          interruptWaiters := interruptWaiters t ++ [c]; resumeWaiters := resumeWaiters t;
          queuedInterrupts := queuedInterrupts t |}, [])
  | RequestInterrupt c r, Running =>
      ({| state := Interrupting; reason := r;
          interruptWaiters := [c]; resumeWaiters := resumeWaiters t;
          queuedInterrupts := queuedInterrupts t |}, [Sent InterruptMessage])
  | NotifyInterrupted, Interrupting =>
      ({| state := Paused; reason := reason t;
          interruptWaiters := []; resumeWaiters := resumeWaiters t;
          queuedInterrupts := queuedInterrupts t |}, Resolves <$> interruptWaiters t)
  | NotifyInterruptFailed, Interrupting =>
      ({| state := Running; reason := reason t;
          interruptWaiters := []; resumeWaiters := resumeWaiters t;
          queuedInterrupts := queuedInterrupts t |}, Fails <$> interruptWaiters t)
  | RequestResume c, Paused =>
      ({| state := Resuming; reason := reason t;
          interruptWaiters := interruptWaiters t; resumeWaiters := [c];
          queuedInterrupts := queuedInterrupts t |}, [Sent ResumeMessage])
  | RequestResume c, Resuming =>
      ({| state := Resuming; reason := reason t;
          interruptWaiters := interruptWaiters t; resumeWaiters := resumeWaiters t ++ [c];
          queuedInterrupts := queuedInterrupts t |}, [])
  | RequestResume c, _ => (t, [Fails c])
  | NotifyResumed, Resuming =>
      match queuedInterrupts t with
      | [] =>
          ({| state := Running; reason := reason t;
              interruptWaiters := interruptWaiters t; resumeWaiters := [];
              queuedInterrupts := [] |},
           Resolves <$> resumeWaiters t)
      | queued =>
          ({| state := Interrupting; reason := reason t;
              interruptWaiters := queued; resumeWaiters := [];
              queuedInterrupts := [] |},
           (Resolves <$> resumeWaiters t) ++ [Sent InterruptMessage])
      end
  | NotifyResumeFailed, Resuming =>
      ({| state := Paused; reason := reason t;
          interruptWaiters := interruptWaiters t; resumeWaiters := [];
          queuedInterrupts := [] |},
       (Fails <$> resumeWaiters t) ++ (Resolves <$> queuedInterrupts t))
  | _, _ => (t, [])
  end.

(** Modelled from the spec: the session-wide coordinator keeps one state
    per thread id; a thread not yet heard of is running with nothing
    pending. *)
Abbreviation Session := (gmap nat Thread).

(** Modelled from the spec: the state the coordinator has for a thread. *)
Definition thread_of (s : Session) (threadId : nat) : Thread :=
  default (idle false) (s !! threadId).

(** Modelled from the spec: the session a run starts from.  The spec does
    not say in which state the coordinator first sees a thread: the
    threads of [paused] count as interrupted, all others as running, and
    nothing is pending for any of them. *)
Definition start (paused : gset nat) : Session := gset_to_gmap (idle true) paused.

(** Modelled from the spec: an input for one thread changes the state of
    that thread only. *)
Definition session_step (s : Session) (threadId : nat) (i : Input) : Session * list Output :=
  let '(t, out) := step (thread_of s threadId) i in (<[threadId := t]> s, out).

(** What a run records of one call: the thread it was for, the call, and
    what the call made visible. *)
Definition Entry : Type := nat * Input * list Output.

(** Modelled from the spec: a whole run, the inputs in arrival order, each
    for one thread. *)
Fixpoint run (s : Session) (inputs : list (nat * Input)) : Session * list Entry :=
  match inputs with
  | [] => (s, [])
  | (threadId, i) :: rest =>
      let '(s1, out) := session_step s threadId i in
      let '(s2, history) := run s1 rest in
      (s2, (threadId, i, out) :: history)
  end.

(** The messages sent and the promises settled in a run, in order, each
    with the thread it belongs to. *)
Definition visible (history : list Entry) : list (nat * Output) :=
  concat ((λ e : Entry, (λ o, (e.1.1, o)) <$> e.2) <$> history).

(** Modelled from the spec: the message an input answers, when the peer
    has confirmed or rejected an interrupt or a resume. *)
Definition answered (i : Input) : option Message :=
  match i with
  | NotifyInterrupted | NotifyInterruptFailed => Some InterruptMessage
  | NotifyResumed | NotifyResumeFailed => Some ResumeMessage
  | RequestInterrupt _ _ | RequestResume _ => None
  end.

Definition is_message (m : Message) (o : Output) : bool :=
  match o, m with
  | Sent InterruptMessage, InterruptMessage => true
  | Sent ResumeMessage, ResumeMessage => true
  | _, _ => false
  end.

(** How often message [m] is among the outputs of a call. *)
Definition sent (m : Message) (out : list Output) : nat :=
  length (List.filter (is_message m) out).

(** Modelled from the spec: the requests [m] of a thread that are in
    flight after a run, counted on the wire: every message [m] sent for
    the thread adds one, every answer of the peer to such a message takes
    one away, if there is one. *)
Definition inFlight_entry (threadId : nat) (m : Message) (n : nat) (e : Entry) : nat :=
  if bool_decide (e.1.1 = threadId)
  then (match answered e.1.2 with
        | Some InterruptMessage => if m is InterruptMessage then pred n else n
        | Some ResumeMessage => if m is ResumeMessage then pred n else n
        | None => n
        end + sent m e.2)%nat
  else n.

Definition inFlight (threadId : nat) (m : Message) (history : list Entry) : nat :=
  foldl (inFlight_entry threadId m) 0%nat history.

(** Modelled from the spec: the number of answers of the peer a thread in
    this state waits for. *)
Definition awaited (m : Message) (t : Thread) : nat :=
  match m, state t with
  | InterruptMessage, Interrupting => 1%nat
  | ResumeMessage, Resuming => 1%nat
  | _, _ => 0%nat
  end.

(** thread.ts, [interrupt]: the call is handed to the coordinator, which
    (modelled from the spec) requests the interrupt as a user request for
    this thread. *)
Definition ThreadAdapter_interrupt (threadId caller : nat) : nat * Input :=
  (threadId, RequestInterrupt caller UserRequest).

End PauseCoordinator.

(** ** Worlds a thread adapter can be in *)

(** The calls that change the grip bookkeeping of a thread adapter,
    starting from a freshly constructed one.  [fromGrip] changes it only
    through [getOrCreateObjectGripAdapter]. *)
Inductive step : World → World → Prop :=
| step_getOrCreate w objectGrip threadLifetime :
    step w (getOrCreateObjectGripAdapter objectGrip threadLifetime w).2
| step_registerScope w scopeAdapter :
    step w (registerScopeAdapter scopeAdapter w)
| step_pushFrame w frameAdapter :
    step w (pushFrameAdapter frameAdapter w)
| step_dispose w peer :
    step w (disposePauseLifetimeAdapters peer w).2.

Definition reachable (w : World) : Prop := rtc step new_World w.

(** A proxy exists in a world when it was constructed for this thread and
    [dispose] has not run on it. *)
Definition exists_in (w : World) (a : ObjectGripAdapter.t) : Prop :=
  a ∈ constructed w ∧ ObjectGripAdapter.address a ∉ disposed w.

Definition indexed (w : World) (a : ObjectGripAdapter.t) : Prop :=
  objectGripAdaptersByActorName (thread w) !! ObjectGripAdapter.actorName a = Some a.

(** What holds of every reachable world. *)
Record consistent (w : World) : Prop := {
  heap_addresses : ∀ a, a ∈ constructed w →
    constructed w !! ObjectGripAdapter.address a = Some a;
  disposed_constructed : ∀ x, x ∈ disposed w → x < length (constructed w);
  index_sound : ∀ n a, objectGripAdaptersByActorName (thread w) !! n = Some a →
    exists_in w a ∧ ObjectGripAdapter.actorName a = n;
  index_complete : ∀ a, exists_in w a → indexed w a;
  release_list_sound : ∀ a, a ∈ pauseLifetimeObjects (thread w) →
    ObjectGripAdapter.isThreadLifetime a = false ∧ indexed w a;
  release_list_complete : ∀ a, indexed w a →
    ObjectGripAdapter.isThreadLifetime a = false → a ∈ pauseLifetimeObjects (thread w)
}.

(** One round of the first loop of [disposePauseLifetimeAdapters]. *)
Definition dispose_and_unindex (w : World) (a : ObjectGripAdapter.t) : World :=
  emit (IndexEntryDeleted (ObjectGripAdapter.actorName a))
    (set_thread (index_delete (ObjectGripAdapter.actorName a)) (dispose a w)).

(** The journal entries one run of [disposePauseLifetimeAdapters] is
    expected to add in a world [w], but for the release request. *)
Definition cleanup_steps (w : World) : list Event :=
  concat ((λ a, [GripAdapterDisposed a;
                 IndexEntryDeleted (ObjectGripAdapter.actorName a)])
            <$> pauseLifetimeObjects (thread w))
  ++ [PauseLifetimeObjectsCleared]
  ++ (ScopeAdapterDisposed <$> scopes (thread w)) ++ [ScopesCleared]
  ++ (FrameAdapterDisposed <$> frames (thread w)) ++ [FramesCleared].

(** The world [disposePauseLifetimeAdapters] is expected to leave behind
    when started in [w], with [request] the journal entries of the
    release request. *)
Definition cleaned (w : World) (request : list Event) : World :=
  {| thread :=
       {| frames := []; scopes := [];
          objectGripAdaptersByActorName :=
            foldl (λ m a, delete (ObjectGripAdapter.actorName a) m)
              (objectGripAdaptersByActorName (thread w))
              (pauseLifetimeObjects (thread w));
          pauseLifetimeObjects := [] |};
     constructed := constructed w;
     disposed :=
       list_to_set (ObjectGripAdapter.address <$> pauseLifetimeObjects (thread w))
       ∪ disposed w;
     journal := journal w ++ cleanup_steps w ++ request |}.

(** The release request of one run started in [w]: none when there is
    nothing to release. *)
Definition release_request (w : World) : list Event :=
  match pauseLifetimeObjects (thread w) with
  | [] => []
  | l => [ReleaseManyRequested (ObjectGripAdapter.actorName <$> l)]
  end.

(** ** Sample inputs and display helpers *)

(** An object grip as the peer sends it. *)
Definition object_grip (class actor : string) : FirefoxDebugProtocol.ObjectGrip :=
  {| FirefoxDebugProtocol.type := "object";
     FirefoxDebugProtocol.initial := EmptyString;
     FirefoxDebugProtocol.name := EmptyString;
     FirefoxDebugProtocol.class := class;
     FirefoxDebugProtocol.actor := actor |}.

(** A peer that accepts every request. *)
Definition obliging_peer : Peer :=
  {| releaseMany_reply := λ _, None; extendLifetime_reply := λ _, None |}.

(** A peer that answers every lifetime-extension request with an error. *)
Definition refusing_peer : Peer :=
  {| releaseMany_reply := λ _, None;
     extendLifetime_reply := λ _, Some "noSuchActor" |}.

(** The grip types [fromGrip] has a case for. *)
Definition recognized_types : list string :=
  ["null"; "undefined"; "Infinity"; "-Infinity"; "NaN"; "-0";
   "longString"; "symbol"; "object"].

(** Integer-valued numbers below 10^21 in magnitude, which [toString]
    renders as their decimal digits. *)
Definition Integer_toString (z : Z) : string := pretty z.

(** How a primitive grip is displayed. *)
Definition rendering {Number} (Number_toString : Number → string)
    (grip : Grip Number) : option string :=
  match grip with
  | BooleanGrip b => Some (if b then "true" else "false")
  | NumberGrip n => Some (Number_toString n)
  | StringGrip s => Some (double_quote +:+ s +:+ double_quote)
  | Complex _ => None
  end.

(** ** Sources of a thread (src/adapter/thread.ts) *)

(** Modelled from the spec: the protocol's description of a source (a
    declaration that is not part of the sources), with the fields thread.ts
    reads: the source actor's name, the [url], which may be missing, and
    the black-box flag. *)
Module FirefoxSource.
Record t : Type := {
  actor : string;
  url : option string;
  isBlackBoxed : bool
}.
End FirefoxSource.

(** Modelled from the spec: the proxy of a source actor, which is not part
    of the sources; thread.ts reads its [name] and its [source]. *)
Module SourceActorProxy.
Record t : Type := {
  name : string;
  source : FirefoxSource.t
}.
End SourceActorProxy.

(** Modelled from the spec: [SourceAdapter], which is not part of the
    sources; [new SourceAdapter(id, actor, path)] keeps its arguments, the
    path as [sourcePath]. *)
Module SourceAdapter.
Record t : Type := {
  id : nat;
  actor : SourceActorProxy.t;
  sourcePath : option string
}.

Definition new (id : nat) (actor : SourceActorProxy.t) (path : option string) : t :=
  {| id := id; actor := actor; sourcePath := path |}.
End SourceAdapter.

(** [!s] for [s : string | undefined]: a missing and an empty string are
    falsy. *)
Definition falsy (s : option string) : bool :=
  match s with
  | None => true
  | Some s => bool_decide (s = EmptyString)
  end.

(** thread.ts, [createSourceAdapter]; [sources] is [this.sources]. *)
Definition createSourceAdapter (id : nat) (actor : SourceActorProxy.t)
    (path : option string) (sources : list SourceAdapter.t)
    : SourceAdapter.t * list SourceAdapter.t :=
  let adapter := SourceAdapter.new id actor path in
  (adapter, sources ++ [adapter]).

(** The loop of [findCorrespondingSourceAdapter]. *)
Fixpoint find_by_url (url : option string) (sources : list SourceAdapter.t)
    : option SourceAdapter.t :=
  match sources with
  | [] => None
  | sourceAdapter :: rest =>
      if bool_decide (FirefoxSource.url (SourceActorProxy.source
                        (SourceAdapter.actor sourceAdapter)) = url)
      then Some sourceAdapter
      else find_by_url url rest
  end.

(** thread.ts, [findCorrespondingSourceAdapter] *)
Definition findCorrespondingSourceAdapter (source : FirefoxSource.t)
    (sources : list SourceAdapter.t) : option SourceAdapter.t :=
  if falsy (FirefoxSource.url source) then None
  else find_by_url (FirefoxSource.url source) sources.

(** thread.ts, [findSourceAdaptersForPath] *)
Definition findSourceAdaptersForPath (path : option string)
    (sources : list SourceAdapter.t) : list SourceAdapter.t :=
  if falsy path then []
  else filter (λ sourceAdapter, SourceAdapter.sourcePath sourceAdapter = path) sources.

(** thread.ts, [findSourceAdapterForActorName] *)
Fixpoint findSourceAdapterForActorName (actorName : string)
    (sources : list SourceAdapter.t) : option SourceAdapter.t :=
  match sources with
  | [] => None
  | sourceAdapter :: rest =>
      if bool_decide (SourceActorProxy.name (SourceAdapter.actor sourceAdapter)
                      = actorName)
      then Some sourceAdapter
      else findSourceAdapterForActorName actorName rest
  end.

(** thread.ts, [shouldSkip]; [log.warn] only writes to the log. *)
Definition shouldSkip (source : FirefoxSource.t)
    (sources : list SourceAdapter.t) : bool :=
  match findSourceAdapterForActorName (FirefoxSource.actor source) sources with
  | Some sourceAdapter =>
      FirefoxSource.isBlackBoxed
        (SourceActorProxy.source (SourceAdapter.actor sourceAdapter))
  | None => false
  end.

(** ** Stack frame pages (src/adapter/thread.ts) *)

(** [Array.prototype.slice(start, end)] for integer arguments: a negative
    index counts from the end, both are clamped to the array, and a missing
    [end] is the length. *)
Definition Array_slice {A} (l : list A) (start : Z) (end_ : option Z) : list A :=
  let len := Z.of_nat (length l) in
  let clamp (i : Z) := if (i <? 0)%Z then Z.max (len + i) 0 else Z.min i len in
  let k := clamp start in
  let final := match end_ with Some e => clamp e | None => len end in
  take (Z.to_nat (final - k)) (drop (Z.to_nat k) l).

(** thread.ts, [fetchStackFrames]: the page cut out of the frames. *)
Definition requestedFrames {A} (frameAdapters : list A) (start count : Z) : list A :=
  if (0 <? count)%Z
  then Array_slice frameAdapters start (Some (start + count)%Z)
  else Array_slice frameAdapters start None.

(** thread.ts, [fetchStackFrames]; [fetchAllStackFrames] is the private
    method of that name, which asks the coordinator to fetch the frames on
    the paused thread. *)
Definition fetchStackFrames (fetchAllStackFrames : M World (list FrameAdapter.t))
    (start count : Z) : M World (list FrameAdapter.t * nat) :=
  let! frameAdapters :=
    (λ w, if bool_decide (0 < length (frames (thread w)))
          then ret (frames (thread w)) w
          else fetchAllStackFrames w) in
  ret (requestedFrames frameAdapters start count, length frameAdapters).

(** ** Console evaluation (src/adapter/thread.ts) *)

(** thread.ts, [consoleEvaluate].  [consoleActor] is the field of that
    name, [None] for a thread without console; its [evaluate] settles with
    the result grip or with the peer's error.  Calling a method on the
    missing console throws a [TypeError]. *)
Definition consoleEvaluate (Number : Type) (Number_toString : Number → string)
    (consoleActor : option (string → option string → outcome (option (Grip Number))))
    (expr : string) (frameActorName : option string) : M World DebugVariable.t :=
  match consoleActor with
  | None => reject "TypeError"
  | Some consoleActor_evaluate =>
      let! grip := (λ w, (consoleActor_evaluate expr frameActorName, w)) in
      let! variableAdapter := sync (variableFromGrip Number Number_toString grip true) in
      ret (VariableAdapter.getVariable variableAdapter)
  end.

(** The world with lifetime-extension requests for the given proxies added
    to the journal, in order. *)
Definition with_extend_requests (l : list ObjectGripAdapter.t) (w : World) : World :=
  {| thread := thread w; constructed := constructed w; disposed := disposed w;
     journal := journal w
                ++ ((λ a, ExtendLifetimeRequested (ObjectGripAdapter.actorName a)) <$> l) |}.

(** ** Attaching to a thread (src/adapter/thread.ts) *)

(** The objects [init] calls are not part of the sources: the thread
    coordinator, the pause coordinator and the thread actor proxy.  A call
    on one of them settles, resolved or rejected (a thrown error rejects),
    and may change the thread adapter's world and a state [S] of their
    own. *)
Record InitCollaborators (S ExceptionBreakpoints : Type) : Type := {
  coordinator_setExceptionBreakpoints : ExceptionBreakpoints → M (World * S) unit;
  pauseCoordinator_requestInterrupt : nat → string → string → M (World * S) unit;
  pauseCoordinator_notifyInterrupted : nat → string → string → M (World * S) unit;
  pauseCoordinator_notifyInterruptFailed : nat → string → M (World * S) unit;
  actor_attach : M (World * S) unit;
  actor_fetchSources : M (World * S) unit;
  coordinator_resume : M (World * S) unit
}.
Arguments coordinator_setExceptionBreakpoints {S ExceptionBreakpoints} _ _.
Arguments pauseCoordinator_requestInterrupt {S ExceptionBreakpoints} _ _ _ _.
Arguments pauseCoordinator_notifyInterrupted {S ExceptionBreakpoints} _ _ _ _.
Arguments pauseCoordinator_notifyInterruptFailed {S ExceptionBreakpoints} _ _ _.
Arguments actor_attach {S ExceptionBreakpoints} _.
Arguments actor_fetchSources {S ExceptionBreakpoints} _.
Arguments coordinator_resume {S ExceptionBreakpoints} _.

(** A method of the thread adapter itself, run where the collaborators'
    state is along. *)
Definition on_thread {S A} (m : M World A) : M (World * S) A :=
  λ ws, let '(o, w') := m ws.1 in (o, (w', ws.2)).

(** thread.ts, [init]; [id] and [name] are the fields of the thread
    adapter. *)
Definition init {S ExceptionBreakpoints} (Number : Type)
    (Number_toString : Number → string)
    (c : InitCollaborators S ExceptionBreakpoints)
    (consoleActor : option (string → option string → outcome (option (Grip Number))))
    (id : nat) (name : string)
    (exceptionBreakpoints : ExceptionBreakpoints) (reload : bool)
    : M (World * S) unit :=
  do! coordinator_setExceptionBreakpoints c exceptionBreakpoints in
  do! pauseCoordinator_requestInterrupt c id name "auto" in
  do! catch
        (do! actor_attach c in
         pauseCoordinator_notifyInterrupted c id name "auto")
        (λ e,
           do! pauseCoordinator_notifyInterruptFailed c id name in
           reject e) in
  do! actor_fetchSources c in
  do! coordinator_resume c in
  if reload
  then
    do! on_thread (consoleEvaluate Number Number_toString consoleActor
                     "location.reload(true)" None) in
    ret tt
  else ret tt.

(** Collaborators that only keep a log of the calls made on them; the
    thread actor refuses to attach. *)
Definition logging_collaborators : InitCollaborators (list string) unit :=
  let log (entry : string) : M (World * list string) unit :=
    modify (λ ws, (ws.1, ws.2 ++ [entry])) in
  {| coordinator_setExceptionBreakpoints := λ _, log "setExceptionBreakpoints";
     pauseCoordinator_requestInterrupt := λ _ _ _, log "requestInterrupt";
     pauseCoordinator_notifyInterrupted := λ _ _ _, log "notifyInterrupted";
     pauseCoordinator_notifyInterruptFailed := λ _ _, log "notifyInterruptFailed";
     actor_attach := do! log "attach" in reject "exited";
     actor_fetchSources := log "fetchSources";
     coordinator_resume := log "resume" |}.

(** ** More of variable.ts *)

(** Modelled from the spec: a property descriptor of the protocol, a
    declaration that is not part of the sources; a data property carries
    a [value] grip, an accessor property does not. *)
Record PropertyDescriptor (Number : Type) : Type := {
  descriptor_value : option (Grip Number)
}.
Arguments descriptor_value {Number} _.

(** variable.ts, [fromPropertyDescriptor] *)
Definition fromPropertyDescriptor (Number : Type) (Number_toString : Number → string)
    (varname : string) (propertyDescriptor : PropertyDescriptor Number)
    (threadLifetime : bool) (w : World) : VariableAdapter.t * World :=
  match descriptor_value propertyDescriptor with
  | Some value => fromGrip Number Number_toString varname value threadLifetime w
  | None => (VariableAdapter.new varname "undefined", w)
  end.

(** variable.ts, [fromSafeGetterValueDescriptor]; [getterValue] is the
    field of the descriptor. *)
Definition fromSafeGetterValueDescriptor (Number : Type)
    (Number_toString : Number → string) (varname : string)
    (getterValue : Grip Number) (threadLifetime : bool) (w : World)
    : VariableAdapter.t * World :=
  fromGrip Number Number_toString varname getterValue threadLifetime w.

(** variable.ts, [compareStrings]: [<] on strings compares code unit by
    code unit. *)
Definition compareStrings (s1 s2 : string) : Z :=
  if String.ltb s1 s2 then (-1)%Z
  else if String.eqb s1 s2 then 0%Z
  else 1%Z.

(** [Array.prototype.sort(compare)].  Which comparisons an engine makes is
    its own business, but the sort is stable, so with a consistent
    comparator its result is the one a stable insertion sort gives. *)
Fixpoint Array_sort_insert {A} (compare : A → A → Z) (x : A) (l : list A) : list A :=
  match l with
  | [] => [x]
  | y :: l' =>
      if (compare x y <=? 0)%Z then x :: y :: l'
      else y :: Array_sort_insert compare x l'
  end.

Definition Array_sort {A} (compare : A → A → Z) (l : list A) : list A :=
  foldr (Array_sort_insert compare) [] l.

(** variable.ts, [sortVariables]; the array is sorted in place, so the
    result is the array the caller holds afterwards. *)
Definition sortVariables (variables : list VariableAdapter.t) : list VariableAdapter.t :=
  Array_sort (λ var1 var2, compareStrings (VariableAdapter.varname var1)
                             (VariableAdapter.varname var2)) variables.

(** ** More of what holds of every reachable world *)

Record tidy (w : World) : Prop := {
  release_list_NoDup : NoDup (pauseLifetimeObjects (thread w));
  disposed_pause_lifetime : ∀ a, a ∈ constructed w →
    ObjectGripAdapter.address a ∈ disposed w →
    ObjectGripAdapter.isThreadLifetime a = false
}.

(** ** Proofs: the grip index *)

(** Journals are compared with every append associated to the right. *)
Ltac list_assoc :=
  repeat (rewrite <- app_assoc || rewrite <- app_comm_cons || rewrite app_nil_r).

Lemma forEach_dispose (l : list ObjectGripAdapter.t) (w : World) :
  forEach (λ objectGripAdapter,
        do! modify (dispose objectGripAdapter) in
        do! modify (set_thread (index_delete (ObjectGripAdapter.actorName objectGripAdapter))) in
        modify (emit (IndexEntryDeleted (ObjectGripAdapter.actorName objectGripAdapter))))
      l w = (Resolved tt, foldl dispose_and_unindex w l).
Proof.
  revert w. induction l as [|a l IH]; intros w; [reflexivity|].
  cbn [forEach foldl]. unfold bind at 1. unfold bind at 1. unfold bind at 1.
  unfold modify at 1 2 3. apply IH.
Qed.

Lemma forEach_emit {A} (ev : A → Event) (l : list A) (w : World) :
  forEach (λ x, modify (emit (ev x))) l w
  = (Resolved tt, {| thread := thread w; constructed := constructed w;
                     disposed := disposed w; journal := journal w ++ (ev <$> l) |}).
Proof.
  revert w. induction l as [|a l IH]; intros w.
  - cbn. rewrite app_nil_r. by destruct w.
  - cbn [forEach]. unfold bind, modify at 1. rewrite IH. cbn.
    by rewrite <- app_assoc.
Qed.

Lemma foldl_dispose_and_unindex (l : list ObjectGripAdapter.t) (w : World) :
  let w' := foldl dispose_and_unindex w l in
  frames (thread w') = frames (thread w)
  ∧ scopes (thread w') = scopes (thread w)
  ∧ pauseLifetimeObjects (thread w') = pauseLifetimeObjects (thread w)
  ∧ constructed w' = constructed w
  ∧ objectGripAdaptersByActorName (thread w')
    = foldl (λ m a, delete (ObjectGripAdapter.actorName a) m)
        (objectGripAdaptersByActorName (thread w)) l
  ∧ disposed w' = list_to_set (ObjectGripAdapter.address <$> l) ∪ disposed w
  ∧ journal w' = journal w ++
      concat ((λ a, [GripAdapterDisposed a;
                     IndexEntryDeleted (ObjectGripAdapter.actorName a)]) <$> l).
Proof.
  revert w. induction l as [|a l IH]; intros w; cbn [foldl].
  - cbn. rewrite app_nil_r. split_and!; try done.
    by rewrite (left_id_L ∅ (∪)).
  - destruct (IH (dispose_and_unindex w a)) as (Hf & Hs & Hp & Hc & Hi & Hd & Hj).
    cbn zeta. rewrite Hf, Hs, Hp, Hc, Hi, Hd, Hj. cbn.
    split_and!; try done.
    + apply set_eq; intros x. rewrite !elem_of_union. tauto.
    + by rewrite <- !app_assoc.
Qed.

(** Deleting the names of a list of proxies from the index. *)
Lemma lookup_foldl_delete (l : list ObjectGripAdapter.t)
    (m : gmap string ObjectGripAdapter.t) (n : string) :
  foldl (λ m a, delete (ObjectGripAdapter.actorName a) m) m l !! n
  = if decide (n ∈ ObjectGripAdapter.actorName <$> l) then None else m !! n.
Proof.
  revert m. induction l as [|a l IH]; intros m; cbn [foldl].
  - rewrite decide_False; [done|]. cbn. set_solver.
  - rewrite IH. rewrite fmap_cons.
    destruct (decide (n = ObjectGripAdapter.actorName a)) as [->|Hne].
    + rewrite lookup_delete_eq. rewrite (decide_True (P := _ ∈ _ :: _)); [|set_solver].
      by case_decide.
    + rewrite lookup_delete_ne by done.
      destruct (decide (n ∈ ObjectGripAdapter.actorName <$> l)).
      * rewrite decide_True; [done|by apply list_elem_of_further].
      * rewrite decide_False; [done|by apply not_elem_of_cons].
Qed.

Lemma foldl_dispose_and_unindex_eq (l : list ObjectGripAdapter.t) (w : World) :
  foldl dispose_and_unindex w l =
  {| thread :=
       {| frames := frames (thread w); scopes := scopes (thread w);
          objectGripAdaptersByActorName :=
            foldl (λ m a, delete (ObjectGripAdapter.actorName a) m)
              (objectGripAdaptersByActorName (thread w)) l;
          pauseLifetimeObjects := pauseLifetimeObjects (thread w) |};
     constructed := constructed w;
     disposed := list_to_set (ObjectGripAdapter.address <$> l) ∪ disposed w;
     journal := journal w ++
       concat ((λ a, [GripAdapterDisposed a;
                      IndexEntryDeleted (ObjectGripAdapter.actorName a)]) <$> l) |}.
Proof.
  pose proof (foldl_dispose_and_unindex l w) as H. cbn zeta in H.
  destruct (foldl dispose_and_unindex w l) as [[f s i p] c d j]. cbn in H.
  destruct H as (-> & -> & -> & -> & -> & -> & ->). done.
Qed.

(** [disposePauseLifetimeAdapters] always resolves, and leaves the
    cleaned world. *)
Lemma disposePauseLifetimeAdapters_run (peer : Peer) (w : World) :
  disposePauseLifetimeAdapters peer w = (Resolved tt, cleaned w (release_request w)).
Proof.
  unfold disposePauseLifetimeAdapters, bind, gets.
  rewrite forEach_dispose, foldl_dispose_and_unindex_eq.
  cbn [modify]. rewrite forEach_emit. cbn. rewrite forEach_emit. cbn.
  unfold cleaned, release_request, cleanup_steps.
  destruct (pauseLifetimeObjects (thread w)) as [|a l] eqn:Hl.
  - rewrite bool_decide_false by (cbn; lia).
    unfold ret, emit, set_thread, set_frames, set_scopes, set_pauseLifetimeObjects.
    cbn. rewrite ?app_nil_r, <- ?app_assoc. done.
  - rewrite bool_decide_true by (cbn; lia).
    unfold catch, releaseMany, bind, modify, ret, reject,
      emit, set_thread, set_frames, set_scopes, set_pauseLifetimeObjects.
    destruct (releaseMany_reply peer _); cbn; by list_assoc.
Qed.

Lemma consistent_new : consistent new_World.
Proof.
  split; unfold exists_in, indexed; cbn.
  - by intros a ?%elem_of_nil.
  - by intros x ?%elem_of_empty.
  - intros n a. by rewrite lookup_empty.
  - by intros a [?%elem_of_nil _].
  - by intros a ?%elem_of_nil.
  - intros a. by rewrite lookup_empty.
Qed.

(** The world a [getOrCreateObjectGripAdapter] call leaves when the name
    is not indexed. *)
Lemma getOrCreate_absent objectGrip threadLifetime (w : World) :
  objectGripAdaptersByActorName (thread w) !! FirefoxDebugProtocol.actor objectGrip = None →
  let a := ObjectGripAdapter.new (length (constructed w)) objectGrip threadLifetime in
  getOrCreateObjectGripAdapter objectGrip threadLifetime w =
  (a, {| thread :=
           {| frames := frames (thread w); scopes := scopes (thread w);
              objectGripAdaptersByActorName :=
                <[FirefoxDebugProtocol.actor objectGrip := a]>
                  (objectGripAdaptersByActorName (thread w));
              pauseLifetimeObjects :=
                if threadLifetime then pauseLifetimeObjects (thread w)
                else pauseLifetimeObjects (thread w) ++ [a] |};
         constructed := constructed w ++ [a];
         disposed := disposed w; journal := journal w |}).
Proof.
  intros Hnone. unfold getOrCreateObjectGripAdapter. rewrite Hnone.
  destruct threadLifetime; reflexivity.
Qed.

Lemma getOrCreate_present objectGrip threadLifetime (w : World) a :
  objectGripAdaptersByActorName (thread w) !! FirefoxDebugProtocol.actor objectGrip = Some a →
  getOrCreateObjectGripAdapter objectGrip threadLifetime w = (a, w).
Proof.
  intros Hsome. unfold getOrCreateObjectGripAdapter. by rewrite Hsome.
Qed.

Lemma consistent_getOrCreate objectGrip threadLifetime (w : World) :
  consistent w →
  consistent (getOrCreateObjectGripAdapter objectGrip threadLifetime w).2.
Proof.
  intros Hw.
  destruct (objectGripAdaptersByActorName (thread w)
              !! FirefoxDebugProtocol.actor objectGrip) as [a|] eqn:Hlook.
  { by rewrite (getOrCreate_present _ _ _ _ Hlook). }
  rewrite (getOrCreate_absent _ _ _ Hlook). cbn zeta. cbn [snd].
  set (n := FirefoxDebugProtocol.actor objectGrip) in *.
  set (a := ObjectGripAdapter.new (length (constructed w)) objectGrip threadLifetime).
  assert (Hname : ObjectGripAdapter.actorName a = n) by reflexivity.
  assert (Haddr : ObjectGripAdapter.address a = length (constructed w)) by reflexivity.
  assert (Hflag : ObjectGripAdapter.isThreadLifetime a = threadLifetime) by reflexivity.
  clearbody a.
  assert (Hfresh : ObjectGripAdapter.address a ∉ disposed w).
  { intros Hin. apply (disposed_constructed w Hw) in Hin. lia. }
  assert (Hother : ∀ b, exists_in w b → ObjectGripAdapter.actorName b ≠ n).
  { intros b Hb Heq. apply (index_complete w Hw) in Hb. unfold indexed in Hb.
    rewrite Heq, Hlook in Hb. done. }
  split; unfold exists_in, indexed; cbn.
  - intros b [Hb | ->%list_elem_of_singleton]%elem_of_app.
    + apply lookup_app_l_Some. by apply (heap_addresses w Hw).
    + rewrite Haddr. by rewrite list_lookup_middle.
  - intros x Hx. apply (disposed_constructed w Hw) in Hx. rewrite length_app. cbn. lia.
  - intros n' b. rewrite lookup_insert. case_decide as Hn.
    + intros [= <-]. subst n'. split_and!; [|done|done].
      apply elem_of_app. right. by apply list_elem_of_singleton.
    + intros Hb. apply (index_sound w Hw) in Hb as [[Hb1 Hb2] Hb3].
      split_and!; [|done|done]. apply elem_of_app. by left.
  - intros b [[Hb | ->%list_elem_of_singleton]%elem_of_app Hlive].
    + rewrite lookup_insert_ne.
      * by apply (index_complete w Hw).
      * intros Heq. by apply (Hother b).
    + rewrite Hname. by rewrite lookup_insert_eq.
  - intros b Hb.
    assert (b ∈ pauseLifetimeObjects (thread w) ∨ (b = a ∧ threadLifetime = false))
      as [Hold | [-> ->]].
    { destruct threadLifetime; [by left|].
      apply elem_of_app in Hb as [?| ->%list_elem_of_singleton]; [by left|by right]. }
    + apply (release_list_sound w Hw) in Hold as [Hfl Hix]. split; [done|].
      rewrite lookup_insert_ne; [done|].
      intros Heq. apply (Hother b); [|done].
      by apply (index_sound w Hw) in Hix as [? _].
    + split; [done|]. rewrite Hname. by rewrite lookup_insert_eq.
  - intros b. rewrite lookup_insert. case_decide as Hn.
    + intros [= <-] Hfl. rewrite Hflag in Hfl. rewrite Hfl.
      apply elem_of_app. right. by apply list_elem_of_singleton.
    + intros Hb Hfl. pose proof (release_list_complete w Hw b Hb Hfl).
      destruct threadLifetime; [done|]. apply elem_of_app. by left.
Qed.

Lemma consistent_registerScope scopeAdapter (w : World) :
  consistent w → consistent (registerScopeAdapter scopeAdapter w).
Proof. intros [? ? ? ? ? ?]. by split. Qed.

Lemma consistent_pushFrame frameAdapter (w : World) :
  consistent w → consistent (pushFrameAdapter frameAdapter w).
Proof. intros [? ? ? ? ? ?]. by split. Qed.

(** A proxy on the release list is an existing one with that address. *)
Lemma release_list_exists (w : World) a :
  consistent w → a ∈ pauseLifetimeObjects (thread w) → exists_in w a.
Proof.
  intros Hw Ha. apply (release_list_sound w Hw) in Ha as [_ Ha].
  by apply (index_sound w Hw) in Ha as [? _].
Qed.

(** Two constructed proxies at one address are one object. *)
Lemma address_inj (w : World) a b :
  consistent w → a ∈ constructed w → b ∈ constructed w →
  ObjectGripAdapter.address a = ObjectGripAdapter.address b → a = b.
Proof.
  intros Hw Ha Hb Heq.
  apply (heap_addresses w Hw) in Ha. apply (heap_addresses w Hw) in Hb.
  rewrite Heq in Ha. congruence.
Qed.

(** Two indexed proxies with one actor name are one object. *)
Lemma indexed_inj (w : World) a b :
  indexed w a → indexed w b →
  ObjectGripAdapter.actorName a = ObjectGripAdapter.actorName b → a = b.
Proof. unfold indexed. intros Ha Hb Heq. rewrite Heq in Ha. congruence. Qed.

Lemma consistent_cleaned (w : World) (request : list Event) :
  consistent w → consistent (cleaned w request).
Proof.
  intros Hw.
  assert (Hdisp : ∀ b, b ∈ constructed w →
            ObjectGripAdapter.address b ∈
              (list_to_set (ObjectGripAdapter.address <$> pauseLifetimeObjects (thread w))
                 : gset nat) →
            b ∈ pauseLifetimeObjects (thread w)).
  { intros b Hb (c & Heq & Hc)%elem_of_list_to_set%list_elem_of_fmap.
    assert (b = c) as ->; [|done].
    apply (address_inj w); try done.
    by apply (release_list_exists w c Hw) in Hc as [? _]. }
  assert (Hnames : ∀ b, indexed w b →
            ObjectGripAdapter.actorName b
              ∈ ObjectGripAdapter.actorName <$> pauseLifetimeObjects (thread w) →
            b ∈ pauseLifetimeObjects (thread w)).
  { intros b Hb (c & Heq & Hc)%list_elem_of_fmap.
    assert (b = c) as ->; [|done].
    apply (indexed_inj w); try done.
    by apply (release_list_sound w Hw) in Hc as [_ ?]. }
  split; unfold exists_in, indexed; cbn.
  - apply (heap_addresses w Hw).
  - intros x [Hx | Hx]%elem_of_union; [|by apply (disposed_constructed w Hw)].
    apply elem_of_list_to_set, list_elem_of_fmap in Hx as (c & -> & Hc).
    apply (release_list_exists w c Hw) in Hc as [Hc _].
    apply (heap_addresses w Hw) in Hc. by apply lookup_lt_Some in Hc.
  - intros n a. rewrite lookup_foldl_delete. case_decide as Hn; [done|].
    intros Ha. pose proof (index_sound w Hw n a Ha) as [[Hc Hl] <-].
    split_and!; try done.
    intros [Hd | Hd]%elem_of_union; [|done].
    apply Hn, list_elem_of_fmap. exists a. split; [done|]. by apply Hdisp.
  - intros b [Hb Hlive]. rewrite lookup_foldl_delete.
    assert (indexed w b) as Hix.
    { apply (index_complete w Hw). split; [done|].
      intros ?. apply Hlive, elem_of_union. by right. }
    case_decide as Hn; [|done].
    exfalso. apply Hlive, elem_of_union. left.
    apply elem_of_list_to_set, list_elem_of_fmap. exists b. split; [done|].
    by apply Hnames.
  - by intros a ?%elem_of_nil.
  - intros b. rewrite lookup_foldl_delete. case_decide as Hn; [done|].
    intros Hb Hfl. exfalso. apply Hn, list_elem_of_fmap. exists b. split; [done|].
    by apply (release_list_complete w Hw).
Qed.

Lemma consistent_step (w w' : World) : step w w' → consistent w → consistent w'.
Proof.
  intros [w0 g tl|w0 s|w0 f|w0 peer] Hw.
  - by apply consistent_getOrCreate.
  - by apply consistent_registerScope.
  - by apply consistent_pushFrame.
  - rewrite disposePauseLifetimeAdapters_run. by apply consistent_cleaned.
Qed.

Lemma consistent_steps (w w' : World) : rtc step w w' → consistent w → consistent w'.
Proof. induction 1; eauto using consistent_step. Qed.

Lemma reachable_consistent (w : World) : reachable w → consistent w.
Proof. intros Hw. eapply consistent_steps; [done|apply consistent_new]. Qed.

(** Proxies are never removed from the heap. *)
Lemma constructed_step (w w' : World) a :
  step w w' → a ∈ constructed w → a ∈ constructed w'.
Proof.
  intros [w0 g tl|w0 s|w0 f|w0 peer] Ha; try done.
  - destruct (objectGripAdaptersByActorName (thread w0)
                !! FirefoxDebugProtocol.actor g) as [b|] eqn:Hlook.
    + by rewrite (getOrCreate_present _ _ _ _ Hlook).
    + rewrite (getOrCreate_absent _ _ _ Hlook). cbn. apply elem_of_app. by left.
  - by rewrite disposePauseLifetimeAdapters_run.
Qed.

Lemma constructed_steps (w w' : World) a :
  rtc step w w' → a ∈ constructed w → a ∈ constructed w'.
Proof. induction 1; eauto using constructed_step. Qed.

(** What [getOrCreateObjectGripAdapter] returns exists, is indexed and
    carries the grip's actor name. *)
Lemma getOrCreate_result objectGrip threadLifetime (w : World) :
  consistent w →
  let r := getOrCreateObjectGripAdapter objectGrip threadLifetime w in
  exists_in r.2 r.1 ∧ indexed r.2 r.1
  ∧ ObjectGripAdapter.actorName r.1 = FirefoxDebugProtocol.actor objectGrip.
Proof.
  intros Hw r.
  pose proof (consistent_getOrCreate objectGrip threadLifetime w Hw) as Hr.
  fold r in Hr.
  assert (objectGripAdaptersByActorName (thread r.2)
            !! FirefoxDebugProtocol.actor objectGrip = Some r.1) as Hix.
  { subst r.
    destruct (objectGripAdaptersByActorName (thread w)
                !! FirefoxDebugProtocol.actor objectGrip) as [b|] eqn:Hlook.
    - by rewrite (getOrCreate_present _ _ _ _ Hlook).
    - rewrite (getOrCreate_absent _ _ _ Hlook). cbn. by rewrite lookup_insert_eq. }
  destruct (index_sound _ Hr _ _ Hix) as [Hex Hname].
  split_and!; try done. unfold indexed. by rewrite Hname.
Qed.

(** ** The claims about grips *)






(** The steps of a resume before the release request hold no release
    request, and a proxy is disposed in them only if it is on the release
    list. *)
Lemma cleanup_steps_elem_of (w : World) (e : Event) :
  e ∈ cleanup_steps w →
  (∀ names, e ≠ ReleaseManyRequested names)
  ∧ (∀ a, e = GripAdapterDisposed a → a ∈ pauseLifetimeObjects (thread w)).
Proof.
  unfold cleanup_steps. rewrite !elem_of_app.
  intros [He|[He|[He|[He|[He|He]]]]].
  - induction (pauseLifetimeObjects (thread w)) as [|b l IH]; cbn in He.
    + by apply elem_of_nil in He.
    + apply elem_of_cons in He as [->|He].
      { split; [done|]. intros a [= ->]. apply list_elem_of_here. }
      apply elem_of_cons in He as [->|He]; [done|].
      destruct (IH He) as [H1 H2]. split; [done|].
      intros a Ha. apply list_elem_of_further. by apply H2.
  - by apply list_elem_of_singleton in He as ->.
  - by apply list_elem_of_fmap in He as (x & -> & _).
  - by apply list_elem_of_singleton in He as ->.
  - by apply list_elem_of_fmap in He as (x & -> & _).
  - by apply list_elem_of_singleton in He as ->.
Qed.

Lemma cleanup_steps_disposes (w : World) (a : ObjectGripAdapter.t) :
  a ∈ pauseLifetimeObjects (thread w) → GripAdapterDisposed a ∈ cleanup_steps w.
Proof.
  intros Ha. unfold cleanup_steps. apply elem_of_app. left.
  induction (pauseLifetimeObjects (thread w)) as [|b l IH]; cbn.
  - by apply elem_of_nil in Ha.
  - apply elem_of_cons in Ha as [->|Ha]; [apply list_elem_of_here|].
    do 2 apply list_elem_of_further. by apply IH.
Qed.



(** C4, as stated, fails: with nothing on the release list the run
    clears the list, the scopes and the frames and sends no release
    request at all. *)
Lemma C4_no_request_counterexample :
  disposePauseLifetimeAdapters obliging_peer new_World
  = (Resolved tt,
     {| thread := new_ThreadAdapter; constructed := []; disposed := ∅;
        journal := [PauseLifetimeObjectsCleared; ScopesCleared; FramesCleared] |}).
Proof. reflexivity. Qed.

(** C4, amended.  Every run of [disposePauseLifetimeAdapters] resolves,
    whatever the peer answers, and adds to the journal, in this order:
    for each proxy on the release list its disposal and the deletion of
    its name from the index; the clearing of the release list; the
    disposal of every cached scope and the clearing of the scopes; the
    disposal of every cached frame and the clearing of the frames; and
    then, if the release list was not empty, one release request naming
    the actors of exactly the proxies that were on it, and no request if
    it was empty.  When the request is sent the lists are already empty
    and the index pruned. *)
Theorem C4_cleanup_order (peer : Peer) (w : World) :
  let r := disposePauseLifetimeAdapters peer w in
  let l := pauseLifetimeObjects (thread w) in
  r.1 = Resolved tt
  ∧ journal r.2 =
      journal w
      ++ concat ((λ a, [GripAdapterDisposed a;
                        IndexEntryDeleted (ObjectGripAdapter.actorName a)]) <$> l)
      ++ [PauseLifetimeObjectsCleared]
      ++ (ScopeAdapterDisposed <$> scopes (thread w)) ++ [ScopesCleared]
      ++ (FrameAdapterDisposed <$> frames (thread w)) ++ [FramesCleared]
      ++ (if bool_decide (l = []) then []
          else [ReleaseManyRequested (ObjectGripAdapter.actorName <$> l)])
  ∧ pauseLifetimeObjects (thread r.2) = []
  ∧ scopes (thread r.2) = []
  ∧ frames (thread r.2) = []
  ∧ (∀ a, a ∈ l →
       objectGripAdaptersByActorName (thread r.2)
         !! ObjectGripAdapter.actorName a = None).
Proof.
  cbn zeta. rewrite disposePauseLifetimeAdapters_run. cbn [fst snd].
  split_and!; try done.
  - cbn. unfold cleanup_steps, release_request.
    destruct (pauseLifetimeObjects (thread w)) as [|a l]; cbn; by list_assoc.
  - intros a Ha. cbn. rewrite lookup_foldl_delete. rewrite decide_True; [done|].
    apply list_elem_of_fmap. by exists a.
Qed.

(** ** The claims about lifetime extension and variables *)

Lemma all_caught {A} (m : A → M World unit) (l : list A) (w : World) :
  (all (λ x, catch (m x) (λ err, ret tt)) l w).1 = Resolved (replicate (length l) tt).
Proof.
  revert w. induction l as [|x l IH]; intros w; [reflexivity|].
  cbn [all]. unfold catch at 1.
  destruct (m x w) as [[[]|e] w1]; cbn [ret].
  - unfold bind. specialize (IH w1). destruct (all _ l w1) as [o w2].
    cbn in IH. by subst o.
  - unfold bind. specialize (IH w1). destruct (all _ l w1) as [o w2].
    cbn in IH. by subst o.
Qed.

(** C5.  The post-actions of [fetchAllStackFrames] and [fetchVariables]
    resolve whatever the peer answers to the lifetime-extension requests;
    the post-action of [evaluate] does not: when the peer refuses to
    extend the lifetime of the object the expression evaluated to, the
    post-action is rejected with the peer's error. *)
Theorem C5_extendLifetime_failures :
  (∀ peer frameAdapters w,
     (fetchAllStackFrames_postAction peer frameAdapters w).1 = Resolved tt)
  ∧ (∀ peer isThreadLifetime variableAdapters w,
       (fetchVariables_postAction peer isThreadLifetime variableAdapters w).1
       = Resolved tt)
  ∧ (let r := variableFromGrip Z Integer_toString
                (Some (Complex (object_grip "Object" "server1.conn0.obj12")))
                false new_World in
     (evaluate_postAction refusing_peer r.1 r.2).1 = Rejected "noSuchActor").
Proof.
  split_and!.
  - intros peer fas w. unfold fetchAllStackFrames_postAction, bind.
    pose proof (all_caught (extendLifetime peer)
                  (concat (FrameAdapter.getObjectGripAdapters <$> fas)) w) as H.
    destruct (all _ _ w) as [o w1]. cbn in H. by subst o.
  - intros peer tl vas w. unfold fetchVariables_postAction.
    destruct tl; [reflexivity|]. cbn [negb]. unfold bind.
    pose proof (all_caught (extendLifetime peer)
                  (omap VariableAdapter.objectGripAdapter vas) w) as H.
    destruct (all _ _ w) as [o w1]. cbn in H. by subst o.
  - reflexivity.
Qed.

(** C8.  [fromGrip] is a total function of the grip: every grip gets a
    variable.  For an object-shaped grip whose type is none of the
    recognized ones, the variable shows the grip's type, has no object
    grip proxy, and the thread is left as it was. *)
Theorem C8_fromGrip_fallback (Number : Type) (Number_toString : Number → string)
    (varname : string) (threadLifetime : bool) (w : World) :
  (∀ grip, ∃ variableAdapter w',
     fromGrip Number Number_toString varname grip threadLifetime w
     = (variableAdapter, w'))
  ∧ (∀ g, FirefoxDebugProtocol.type g ∉ recognized_types →
       fromGrip Number Number_toString varname (Complex g) threadLifetime w
       = ({| VariableAdapter.varname := varname;
             VariableAdapter.value := FirefoxDebugProtocol.type g;
             VariableAdapter.objectGripAdapter := None |}, w)).
Proof.
  split.
  - intros grip.
    destruct (fromGrip Number Number_toString varname grip threadLifetime w)
      as [v w'] eqn:E. by exists v, w'.
  - intros g Hg. unfold recognized_types in Hg.
    rewrite !not_elem_of_cons in Hg. destruct_and!.
    cbn [fromGrip]. rewrite !bool_decide_false; try done.
    rewrite !not_elem_of_cons. split_and!; done.
Qed.

Lemma C8_fromGrip_fallback_witness :
  let g := {| FirefoxDebugProtocol.type := "bigint";
              FirefoxDebugProtocol.initial := EmptyString;
              FirefoxDebugProtocol.name := EmptyString;
              FirefoxDebugProtocol.class := EmptyString;
              FirefoxDebugProtocol.actor := EmptyString |} in
  (FirefoxDebugProtocol.type g ∉ recognized_types)
  ∧ fromGrip Z Integer_toString "x" (Complex g) false new_World
    = (VariableAdapter.new "x" "bigint", new_World).
Proof.
  intros g.
  assert (FirefoxDebugProtocol.type g ∉ recognized_types) as H.
  { apply (bool_decide_unpack _). reflexivity. }
  split; [exact H|].
  exact (proj2 (C8_fromGrip_fallback Z Integer_toString "x" false new_World) g H).
Defined.

(** C9.  [fromGrip] turns a boolean, number or string grip into a variable
    that shows ["true"] or ["false"], the number's [toString()], or the
    string between double quotes, with no object grip proxy, and leaves
    the thread as it was.  [evaluate], in a frame or on the console,
    returns such a variable, without a variables reference, when the peer
    answers with a primitive grip; when it answers the expression [1+1]
    with the number 2, the variable shows ["2"]. *)
Theorem C9_primitive_results :
  (∀ Number (Number_toString : Number → string) varname threadLifetime w,
     (∀ b, fromGrip Number Number_toString varname (BooleanGrip b) threadLifetime w
           = (VariableAdapter.new varname (if b then "true" else "false"), w))
     ∧ (∀ n, fromGrip Number Number_toString varname (NumberGrip n) threadLifetime w
             = (VariableAdapter.new varname (Number_toString n), w))
     ∧ (∀ s, fromGrip Number Number_toString varname (StringGrip s) threadLifetime w
             = (VariableAdapter.new varname (double_quote +:+ s +:+ double_quote), w)))
  ∧ (∀ Number (Number_toString : Number → string) peer remoteEvaluate
       expr frameActorName w grip value,
       remoteEvaluate expr frameActorName = Some grip →
       rendering Number_toString grip = Some value →
       evaluate Number Number_toString peer remoteEvaluate expr frameActorName w
       = (Resolved {| DebugVariable.name := EmptyString;
                      DebugVariable.value := value;
                      DebugVariable.variablesReference := None |}, w))
  ∧ (∀ peer remoteEvaluate frameActorName w,
       remoteEvaluate "1+1" frameActorName = Some (NumberGrip 2%Z) →
       evaluate Z Integer_toString peer remoteEvaluate "1+1" frameActorName w
       = (Resolved {| DebugVariable.name := EmptyString;
                      DebugVariable.value := "2";
                      DebugVariable.variablesReference := None |}, w)).
Proof.
  assert (∀ Number (Number_toString : Number → string) peer remoteEvaluate
            expr frameActorName w grip value,
            remoteEvaluate expr frameActorName = Some grip →
            rendering Number_toString grip = Some value →
            evaluate Number Number_toString peer remoteEvaluate expr frameActorName w
            = (Resolved {| DebugVariable.name := EmptyString;
                           DebugVariable.value := value;
                           DebugVariable.variablesReference := None |}, w)) as Heval.
  { intros Number toS peer remote expr frame w grip value Hreply Hrender.
    unfold evaluate, ThreadCoordinator_evaluate, ThreadCoordinator_consoleEvaluate.
    destruct frame as [frame|]; unfold bind, sync; rewrite Hreply;
      destruct grip as [b|n|s|g]; cbn in Hrender; try done;
      injection Hrender as <-; reflexivity. }
  split_and!.
  - intros. split_and!; reflexivity.
  - exact Heval.
  - intros peer remote frame w Hreply.
    by apply (Heval Z Integer_toString peer remote "1+1" frame w (NumberGrip 2%Z)).
Qed.

Lemma C9_primitive_results_witness :
  let remoteEvaluate : string → option string → option (Grip Z) :=
    λ _ _, Some (NumberGrip 2%Z) in
  remoteEvaluate "1+1" (Some "server1.conn0.frame3") = Some (NumberGrip 2%Z)
  ∧ evaluate Z Integer_toString obliging_peer remoteEvaluate "1+1"
      (Some "server1.conn0.frame3") new_World
    = (Resolved {| DebugVariable.name := EmptyString;
                   DebugVariable.value := "2";
                   DebugVariable.variablesReference := None |}, new_World).
Proof.
  intros remoteEvaluate.
  assert (remoteEvaluate "1+1" (Some "server1.conn0.frame3") = Some (NumberGrip 2%Z))
    as H by reflexivity.
  split; [exact H|].
  exact (proj2 (proj2 C9_primitive_results) obliging_peer remoteEvaluate
           (Some "server1.conn0.frame3") new_World H).
Defined.

(** ** The claims about the actor registry *)

Module DebugConnectionFacts.
Import DebugConnection.

Lemma Map_has_get (m : ActorMap) (k : string) :
  Map_has m k = bool_decide (is_Some (Map_get m k)).
Proof.
  induction m as [|[k' v] m IH]; cbn [Map_has Map_get].
  - symmetry. apply bool_decide_eq_false. by intros [? ?].
  - destruct (bool_decide (k' = k)); [|done].
    symmetry. by apply bool_decide_eq_true.
Qed.

Lemma Map_get_elem_of (m : ActorMap) (k : string) (v : ActorProxy) :
  Map_get m k = Some v → (k, v) ∈ m.
Proof.
  induction m as [|[k' v'] m IH]; cbn; [done|].
  case_bool_decide as Hk.
  - intros [= ->]. subst. apply list_elem_of_here.
  - intros H. apply list_elem_of_further. by apply IH.
Qed.

Lemma Map_get_None (m : ActorMap) (k : string) :
  Map_get m k = None ↔ k ∉ m.*1.
Proof.
  induction m as [|[k' v'] m IH]; cbn.
  - split; [|done]. intros _. apply not_elem_of_nil.
  - rewrite not_elem_of_cons. case_bool_decide as Hk.
    + split; [done|]. intros [Hne _]. by subst.
    + rewrite IH. split; [|by intros [_ ?]]. intros ?. split; [|done]. congruence.
Qed.

Lemma elem_of_Map_get (m : ActorMap) (k : string) (v : ActorProxy) :
  NoDup m.*1 → (k, v) ∈ m → Map_get m k = Some v.
Proof.
  induction m as [|[k' v'] m IH]; cbn; [by intros _ ?%elem_of_nil|].
  intros [Hk' Hm]%NoDup_cons [[= -> ->]|Hin]%elem_of_cons.
  - by rewrite bool_decide_true.
  - rewrite bool_decide_false; [by apply IH|].
    intros ->. apply Hk', list_elem_of_fmap. by exists (k, v).
Qed.

Lemma Map_set_keys (k : string) (v : ActorProxy) (m : ActorMap) (x : string) :
  x ∈ (Map_set k v m).*1 ↔ x = k ∨ x ∈ m.*1.
Proof.
  induction m as [|[k' v'] m IH]; cbn.
  - rewrite list_elem_of_singleton. split; [by left|]. intros [?|?%elem_of_nil]; done.
  - case_bool_decide as Hk; cbn; rewrite !elem_of_cons.
    + subst. tauto.
    + rewrite IH. tauto.
Qed.

Lemma Map_set_NoDup (k : string) (v : ActorProxy) (m : ActorMap) :
  NoDup m.*1 → NoDup (Map_set k v m).*1.
Proof.
  induction m as [|[k' v'] m IH]; cbn.
  - intros _. apply NoDup_singleton.
  - intros [Hk' Hm]%NoDup_cons. case_bool_decide as Hk; cbn.
    + by apply NoDup_cons.
    + apply NoDup_cons. split; [|by apply IH].
      rewrite Map_set_keys. intros [?|?]; [congruence|done].
Qed.

Lemma Map_delete_keys (k : string) (m : ActorMap) (x : string) :
  x ∈ (Map_delete k m).*1 → x ∈ m.*1.
Proof.
  induction m as [|[k' v'] m IH]; cbn; [done|].
  case_bool_decide as Hk; cbn; rewrite !elem_of_cons; [by right|].
  intros [?|?]; [by left|right; by apply IH].
Qed.

Lemma Map_delete_NoDup (k : string) (m : ActorMap) :
  NoDup m.*1 → NoDup (Map_delete k m).*1.
Proof.
  induction m as [|[k' v'] m IH]; cbn; [done|].
  intros [Hk' Hm]%NoDup_cons. case_bool_decide as Hk; cbn; [done|].
  apply NoDup_cons. split; [|by apply IH].
  intros ?%Map_delete_keys. done.
Qed.

Lemma Map_get_set (k : string) (v : ActorProxy) (m : ActorMap) :
  Map_get (Map_set k v m) k = Some v.
Proof.
  induction m as [|[k' v'] m IH]; cbn.
  - by rewrite bool_decide_true.
  - case_bool_decide as Hk; cbn; [by rewrite bool_decide_true|].
    by rewrite bool_decide_false.
Qed.

Lemma Map_get_delete (k : string) (m : ActorMap) :
  NoDup m.*1 → Map_get (Map_delete k m) k = None.
Proof.
  induction m as [|[k' v'] m IH]; cbn; [done|].
  intros [Hk' Hm]%NoDup_cons. case_bool_decide as Hk; cbn.
  - subst. by apply Map_get_None.
  - rewrite bool_decide_false by done. by apply IH.
Qed.

Lemma after_NoDup (calls : list Call) : NoDup (after calls).*1.
Proof.
  unfold after. induction calls as [|c calls IH] using rev_ind; cbn.
  - apply NoDup_nil_2.
  - rewrite foldl_app. cbn. destruct c; cbn.
    + by apply Map_set_NoDup.
    + by apply Map_delete_NoDup.
Qed.

Lemma onMessage_dispatch (isDebugEnabled : bool) (actors : ActorMap)
    (response : Response) :
  onMessage isDebugEnabled actors response =
  match Map_get actors (from response) with
  | Some proxy =>
      (if isDebugEnabled then [LogDebug response] else [])
      ++ [ReceiveResponse proxy response]
  | None => [LogError response]
  end.
Proof.
  unfold onMessage. rewrite Map_has_get.
  destruct (Map_get actors (from response)) as [p|] eqn:E.
  - by rewrite bool_decide_true.
  - rewrite bool_decide_false; [done|]. by intros [? ?].
Qed.

End DebugConnectionFacts.

Module DebugConnectionMoreFacts.
Import DebugConnection.

Lemma Map_get_set_ne (k k' : string) (v : ActorProxy) (m : ActorMap) :
  k' ≠ k → Map_get (Map_set k v m) k' = Map_get m k'.
Proof.
  intros Hne. induction m as [|[k0 v0] m IH]; cbn.
  - by rewrite bool_decide_false.
  - destruct (decide (k0 = k)) as [->|Hk].
    + rewrite (bool_decide_true (k = k)) by done. cbn.
      by rewrite !(bool_decide_false (k = k')) by done.
    + rewrite (bool_decide_false (k0 = k)) by done. cbn. by rewrite IH.
Qed.

Lemma Map_get_delete_ne (k k' : string) (m : ActorMap) :
  k' ≠ k → Map_get (Map_delete k m) k' = Map_get m k'.
Proof.
  intros Hne. induction m as [|[k0 v0] m IH]; cbn; [done|].
  destruct (decide (k0 = k)) as [->|Hk].
  - rewrite (bool_decide_true (k = k)) by done.
    by rewrite (bool_decide_false (k = k')) by done.
  - rewrite (bool_decide_false (k0 = k)) by done. cbn. by rewrite IH.
Qed.

Lemma Map_delete_set_absent (k : string) (v : ActorProxy) (m : ActorMap) :
  Map_get m k = None → Map_delete k (Map_set k v m) = m.
Proof.
  induction m as [|[k0 v0] m IH]; cbn.
  - by rewrite bool_decide_true.
  - case_bool_decide as Hk; [done|]. intros Hnone. cbn.
    rewrite bool_decide_false by done. by rewrite IH.
Qed.

Lemma Map_set_set (k : string) (v v' : ActorProxy) (m : ActorMap) :
  Map_set k v' (Map_set k v m) = Map_set k v' m.
Proof.
  induction m as [|[k0 v0] m IH]; cbn.
  - by rewrite bool_decide_true.
  - case_bool_decide as Hk; cbn.
    + by rewrite bool_decide_true.
    + rewrite bool_decide_false by done. by rewrite IH.
Qed.

Lemma getOrCreate_eq (actorName : string)
    (createActor : ActorMap → ActorProxy * ActorMap) (actors : ActorMap) :
  getOrCreate actorName createActor actors =
  match Map_get actors actorName with
  | Some proxy => (Some proxy, actors)
  | None => (Some (createActor actors).1, (createActor actors).2)
  end.
Proof.
  unfold getOrCreate. rewrite DebugConnectionFacts.Map_has_get.
  destruct (Map_get actors actorName) as [p|] eqn:E.
  - by rewrite bool_decide_true.
  - rewrite bool_decide_false; [|by intros [? ?]]. by destruct (createActor actors).
Qed.

Lemma after_snoc (calls : list Call) (c : Call) :
  after (calls ++ [c]) = call (after calls) c.
Proof. unfold after. by rewrite foldl_app. Qed.

Lemma Map_get_call (m : ActorMap) (c : Call) (n : string) :
  NoDup m.*1 →
  Map_get (call m c) n
  = if bool_decide (n = call_name c)
    then match c with Register actor => Some actor | Unregister _ => None end
    else Map_get m n.
Proof.
  intros Hnd. destruct c as [a|a]; cbn [call call_name]; unfold register, unregister;
    case_bool_decide as Hn.
  - subst n. apply DebugConnectionFacts.Map_get_set.
  - by apply Map_get_set_ne.
  - subst n. by apply DebugConnectionFacts.Map_get_delete.
  - by apply Map_get_delete_ne.
Qed.

(** Calls about other names leave the answer for a name as it was. *)
Lemma after_untouched (calls rest : list Call) (n : string) :
  (∀ c, c ∈ rest → call_name c ≠ n) →
  Map_get (after (calls ++ rest)) n = Map_get (after calls) n.
Proof.
  induction rest as [|c rest IH] using rev_ind; intros Hrest.
  - by rewrite app_nil_r.
  - rewrite app_assoc, after_snoc, Map_get_call by apply DebugConnectionFacts.after_NoDup.
    rewrite bool_decide_false.
    + apply IH. intros c' Hc'. apply Hrest, elem_of_app. by left.
    + intros Hn. apply (Hrest c); [|done]. apply elem_of_app. right.
      apply list_elem_of_here.
Qed.

(** What is registered after a sequence of calls: the proxy of the last
    [register] for the name, if no call for that name came after it. *)
Lemma after_lookup (calls : list Call) (n : string) (proxy : ActorProxy) :
  Map_get (after calls) n = Some proxy
  ↔ ∃ before rest, calls = before ++ Register proxy :: rest
      ∧ name proxy = n ∧ ∀ c, c ∈ rest → call_name c ≠ n.
Proof.
  induction calls as [|c calls IH] using rev_ind.
  - split; [done|]. intros (before & rest & Heq & _). by destruct before.
  - rewrite after_snoc, Map_get_call by apply DebugConnectionFacts.after_NoDup.
    case_bool_decide as Hn.
    + split.
      * destruct c as [a|a]; [|done]. intros [= ->].
        exists calls, []. split_and!; [done|done|]. by intros c ?%elem_of_nil.
      * intros (before & rest & Heq & Hname & Hrest).
        destruct rest as [|r rest _] using rev_ind.
        -- apply app_inj_tail in Heq as [_ ->]. done.
        -- rewrite app_comm_cons, app_assoc in Heq.
           apply app_inj_tail in Heq as [_ <-].
           destruct (Hrest c); [|done]. apply elem_of_app. right.
           apply list_elem_of_here.
    + rewrite IH. split.
      * intros (before & rest & -> & Hname & Hrest).
        exists before, (rest ++ [c]). split_and!; [by list_assoc|done|].
        intros c' [? | ->%list_elem_of_singleton]%elem_of_app; [by apply Hrest|].
        congruence.
      * intros (before & rest & Heq & Hname & Hrest).
        destruct rest as [|r rest _] using rev_ind.
        -- apply app_inj_tail in Heq as [_ ->]. cbn in Hn. congruence.
        -- rewrite app_comm_cons, app_assoc in Heq.
           apply app_inj_tail in Heq as [-> <-].
           exists before, rest. split_and!; [done|done|].
           intros c' Hc'. apply Hrest, elem_of_app. by left.
Qed.

End DebugConnectionMoreFacts.

(** C6.  After any sequence of [register] and [unregister] calls on a
    fresh connection: no name has two entries in the registry, so a name
    has at most one proxy.  A call changes the answer for the name it is
    about and for no other name: [register] makes its proxy the answer,
    [unregister] makes the name unknown.  So the proxy found under a name
    is the one of the last [register] for that name, provided no call
    about the name came after it, and nothing is found when the last call
    about the name was an [unregister] or there was none.  A message whose
    [from] names no registered actor is logged as an error and handed to
    no proxy, in particular a message for an actor that has been
    unregistered, whatever was done to other names since; a message whose
    [from] names a registered actor is handed to the response handler of
    the proxy registered under that name and to no other, after the debug
    log entry when debug logging is on, whatever was done to other names
    since it was registered. *)
Theorem C6_registry_routing (calls : list DebugConnection.Call) :
  let actors := DebugConnection.after calls in
  let dispatched (isDebugEnabled : bool) proxy response :=
    (if isDebugEnabled then [DebugConnection.LogDebug response] else [])
    ++ [DebugConnection.ReceiveResponse proxy response] in
  NoDup actors.*1
  ∧ (∀ n p q, (n, p) ∈ actors → (n, q) ∈ actors → p = q)
  ∧ (∀ actor,
       DebugConnection.Map_get (DebugConnection.register actor actors)
         (DebugConnection.name actor) = Some actor)
  ∧ (∀ actor,
       DebugConnection.Map_get (DebugConnection.unregister actor actors)
         (DebugConnection.name actor) = None)
  ∧ (∀ isDebugEnabled response,
       DebugConnection.onMessage isDebugEnabled actors response =
       match DebugConnection.Map_get actors (DebugConnection.from response) with
       | Some proxy => dispatched isDebugEnabled proxy response
       | None => [DebugConnection.LogError response]
       end)
  ∧ (∀ n proxy, DebugConnection.Map_get actors n = Some proxy ↔ (n, proxy) ∈ actors)
  ∧ (∀ actor isDebugEnabled response,
       DebugConnection.from response = DebugConnection.name actor →
       DebugConnection.onMessage isDebugEnabled
         (DebugConnection.unregister actor actors) response
       = [DebugConnection.LogError response])
  ∧ (∀ actor n, n ≠ DebugConnection.name actor →
       DebugConnection.Map_get (DebugConnection.register actor actors) n
       = DebugConnection.Map_get actors n
       ∧ DebugConnection.Map_get (DebugConnection.unregister actor actors) n
         = DebugConnection.Map_get actors n)
  ∧ (∀ n proxy,
       DebugConnection.Map_get actors n = Some proxy
       ↔ ∃ before rest,
           calls = before ++ DebugConnection.Register proxy :: rest
           ∧ DebugConnection.name proxy = n
           ∧ ∀ c, c ∈ rest → DebugConnection.call_name c ≠ n)
  ∧ (∀ isDebugEnabled response proxy before rest,
       calls = before ++ DebugConnection.Register proxy :: rest →
       DebugConnection.name proxy = DebugConnection.from response →
       (∀ c, c ∈ rest →
             DebugConnection.call_name c ≠ DebugConnection.from response) →
       DebugConnection.onMessage isDebugEnabled actors response
       = dispatched isDebugEnabled proxy response)
  ∧ (∀ isDebugEnabled response actor before rest,
       calls = before ++ DebugConnection.Unregister actor :: rest →
       DebugConnection.name actor = DebugConnection.from response →
       (∀ c, c ∈ rest →
             DebugConnection.call_name c ≠ DebugConnection.from response) →
       DebugConnection.onMessage isDebugEnabled actors response
       = [DebugConnection.LogError response])
  ∧ (∀ isDebugEnabled response,
       (∀ c, c ∈ calls →
             DebugConnection.call_name c ≠ DebugConnection.from response) →
       DebugConnection.onMessage isDebugEnabled actors response
       = [DebugConnection.LogError response]).
Proof.
  intros actors dispatched.
  pose proof (DebugConnectionFacts.after_NoDup calls) as Hnd. fold actors in Hnd.
  split_and!.
  - done.
  - intros n p q Hp Hq.
    apply (DebugConnectionFacts.elem_of_Map_get _ _ _ Hnd) in Hp, Hq. congruence.
  - intros actor. apply DebugConnectionFacts.Map_get_set.
  - intros actor. by apply DebugConnectionFacts.Map_get_delete.
  - intros. apply DebugConnectionFacts.onMessage_dispatch.
  - intros n p. split.
    + apply DebugConnectionFacts.Map_get_elem_of.
    + by apply DebugConnectionFacts.elem_of_Map_get.
  - intros actor dbg response Hfrom.
    rewrite DebugConnectionFacts.onMessage_dispatch, Hfrom.
    unfold DebugConnection.unregister.
    by rewrite DebugConnectionFacts.Map_get_delete.
  - intros actor n Hn. unfold DebugConnection.register, DebugConnection.unregister.
    split.
    + by apply DebugConnectionMoreFacts.Map_get_set_ne.
    + by apply DebugConnectionMoreFacts.Map_get_delete_ne.
  - intros n proxy. apply DebugConnectionMoreFacts.after_lookup.
  - intros dbg response proxy before rest Hcalls Hname Hrest.
    rewrite DebugConnectionFacts.onMessage_dispatch.
    assert (DebugConnection.Map_get actors (DebugConnection.from response)
            = Some proxy) as ->; [|done].
    apply DebugConnectionMoreFacts.after_lookup. by exists before, rest.
  - intros dbg response actor before rest Hcalls Hname Hrest.
    rewrite DebugConnectionFacts.onMessage_dispatch.
    assert (DebugConnection.Map_get actors (DebugConnection.from response) = None)
      as ->; [|done].
    unfold actors. rewrite Hcalls.
    change (before ++ DebugConnection.Unregister actor :: rest)
      with (before ++ [DebugConnection.Unregister actor] ++ rest).
    rewrite app_assoc, DebugConnectionMoreFacts.after_untouched by done.
    rewrite DebugConnectionMoreFacts.after_snoc,
      DebugConnectionMoreFacts.Map_get_call
      by apply DebugConnectionFacts.after_NoDup.
    by rewrite bool_decide_true.
  - intros dbg response Hnone.
    rewrite DebugConnectionFacts.onMessage_dispatch.
    assert (DebugConnection.Map_get actors (DebugConnection.from response) = None)
      as ->; [|done].
    unfold actors.
    by rewrite (DebugConnectionMoreFacts.after_untouched [] calls).
Qed.

(** C10.  [getOrCreate] returns the proxy found under the name and the
    registry as it was, when there is one; otherwise it returns what the
    factory made and the registry as the factory left it, inserting
    nothing itself. *)
Theorem C10_getOrCreate_frame (actorName : string)
    (createActor : DebugConnection.ActorMap →
                   DebugConnection.ActorProxy * DebugConnection.ActorMap)
    (actors : DebugConnection.ActorMap) :
  DebugConnection.getOrCreate actorName createActor actors =
  match DebugConnection.Map_get actors actorName with
  | Some proxy => (Some proxy, actors)
  | None => (Some (createActor actors).1, (createActor actors).2)
  end.
Proof.
  unfold DebugConnection.getOrCreate. rewrite DebugConnectionFacts.Map_has_get.
  destruct (DebugConnection.Map_get actors actorName) as [p|] eqn:E.
  - by rewrite bool_decide_true.
  - rewrite bool_decide_false; [|by intros [? ?]]. by destruct (createActor actors).
Qed.

(** ** The claim about concurrent interrupts *)

Module PauseCoordinatorFacts.
Import PauseCoordinator.

Lemma thread_of_insert (s : Session) (threadId threadId' : nat) (t : Thread) :
  thread_of (<[threadId := t]> s) threadId'
  = if decide (threadId = threadId') then t else thread_of s threadId'.
Proof. unfold thread_of. rewrite lookup_insert. by case_decide. Qed.

Lemma thread_of_start (paused : gset nat) (threadId : nat) :
  thread_of (start paused) threadId = idle (bool_decide (threadId ∈ paused)).
Proof.
  unfold thread_of, start. rewrite lookup_gset_to_gmap.
  case_bool_decide.
  - by rewrite option_guard_True.
  - by rewrite option_guard_False.
Qed.

Lemma sent_app (m : Message) (out1 out2 : list Output) :
  sent m (out1 ++ out2) = (sent m out1 + sent m out2)%nat.
Proof. unfold sent. by rewrite List.filter_app, length_app. Qed.

Lemma sent_Resolves (m : Message) (callers : list nat) : sent m (Resolves <$> callers) = 0%nat.
Proof. induction callers as [|c callers IH]; [done|]. by destruct m. Qed.

Lemma sent_Fails (m : Message) (callers : list nat) : sent m (Fails <$> callers) = 0%nat.
Proof. induction callers as [|c callers IH]; [done|]. by destruct m. Qed.

Lemma inFlight_entry_step (threadId : nat) (m : Message) (t : Thread) (i : Input) :
  inFlight_entry threadId m (awaited m t) (threadId, i, (step t i).2)
  = awaited m (step t i).1.
Proof.
  unfold inFlight_entry. rewrite bool_decide_true by done.
  destruct t as [st r iw rw qi]. unfold awaited.
  destruct i, st, m; cbn -[sent];
    rewrite ?sent_app, ?sent_Resolves, ?sent_Fails; try done;
    destruct qi; cbn -[sent]; rewrite ?sent_app, ?sent_Resolves, ?sent_Fails; done.
Qed.

Lemma inFlight_run (threadId : nat) (m : Message) (inputs : list (nat * Input)) (s : Session) :
  foldl (inFlight_entry threadId m) (awaited m (thread_of s threadId)) (run s inputs).2
  = awaited m (thread_of (run s inputs).1 threadId).
Proof.
  revert s. induction inputs as [|[tid i] inputs IH]; intros s; [done|].
  cbn [run]. unfold session_step.
  pose proof (inFlight_entry_step threadId m (thread_of s tid) i) as Hstep.
  destruct (step (thread_of s tid) i) as [t out].
  specialize (IH (<[tid := t]> s)).
  destruct (run (<[tid := t]> s) inputs) as [s2 history]. cbn in *.
  rewrite <- IH. f_equal.
  rewrite thread_of_insert. case_decide as Htid.
  - by subst tid.
  - unfold inFlight_entry. by rewrite bool_decide_false.
Qed.

Lemma inFlight_awaited (paused : gset nat) (threadId : nat) (m : Message)
    (inputs : list (nat * Input)) :
  inFlight threadId m (run (start paused) inputs).2
  = awaited m (thread_of (run (start paused) inputs).1 threadId).
Proof.
  rewrite <- inFlight_run. unfold inFlight. f_equal.
  rewrite thread_of_start. by destruct m, (bool_decide _).
Qed.

Lemma run_cons (s : Session) (threadId : nat) (i : Input) (rest : list (nat * Input)) :
  run s ((threadId, i) :: rest)
  = let s1 := <[threadId := (step (thread_of s threadId) i).1]> s in
    ((run s1 rest).1, (threadId, i, (step (thread_of s threadId) i).2) :: (run s1 rest).2).
Proof.
  cbn [run]. unfold session_step.
  destruct (step (thread_of s threadId) i) as [t out]. cbn.
  by destruct (run (<[threadId := t]> s) rest).
Qed.

Lemma visible_cons (threadId : nat) (i : Input) (out : list Output) (history : list Entry) :
  visible ((threadId, i, out) :: history) = ((λ o, (threadId, o)) <$> out) ++ visible history.
Proof. done. Qed.

Lemma run_one (s : Session) (threadId : nat) (i : Input) :
  thread_of (run s [(threadId, i)]).1 threadId = (step (thread_of s threadId) i).1
  ∧ visible (run s [(threadId, i)]).2
    = (λ o, (threadId, o)) <$> (step (thread_of s threadId) i).2.
Proof.
  rewrite run_cons. cbn [fst snd run].
  rewrite thread_of_insert, decide_True by done.
  rewrite visible_cons. by rewrite app_nil_r.
Qed.

Lemma run_two (s : Session) (threadId : nat) (i j : Input) :
  let first := step (thread_of s threadId) i in
  let second := step first.1 j in
  thread_of (run s [(threadId, i); (threadId, j)]).1 threadId = second.1
  ∧ visible (run s [(threadId, i); (threadId, j)]).2
    = (λ o, (threadId, o)) <$> (first.2 ++ second.2).
Proof.
  cbn zeta. rewrite run_cons. cbn zeta. cbn [fst snd].
  destruct (run_one (<[threadId := (step (thread_of s threadId) i).1]> s) threadId j)
    as [Hthread Hvisible].
  rewrite thread_of_insert, decide_True in Hthread, Hvisible by done.
  split; [done|].
  by rewrite visible_cons, Hvisible, fmap_app.
Qed.

End PauseCoordinatorFacts.

(** C7.  The interrupts and the resumes of a thread that are in flight
    are counted on the wire: a message sent adds one, an answer of the
    peer takes one away.  In every run of the pause coordinator, from a
    session in which each thread is running or interrupted and nothing is
    pending, and for every thread, that number is one for interrupts
    exactly while the thread is being interrupted and one for resumes
    exactly while it is being resumed, and zero otherwise: never more than
    one of either.  When two callers then call [interrupt] on the thread
    one after the other: if it is running, one interrupt message is sent
    for both, neither call is settled by the calls, and the peer's answer
    settles both, the first caller first, resolving them and pausing the
    thread if it confirms, failing them and leaving the thread running if
    it rejects; if an interrupt is in flight already, no message is sent
    and the two callers are settled by the answer to that interrupt, after
    the callers that waited before them; if the thread is paused, both
    calls resolve at once and no message is sent; if a resume is in flight,
    nothing is sent until the peer confirms the resume, then one interrupt
    message is sent, and its confirmation resolves the callers queued
    before and the two.  While an interrupt is in flight, a call that is not
    the peer's answer to it sends nothing, resolves nobody and leaves every
    waiting caller waiting. *)
Theorem C7_interrupt_shared (paused : gset nat)
    (inputs : list (nat * PauseCoordinator.Input)) (threadId caller1 caller2 : nat) :
  let reached := PauseCoordinator.run (PauseCoordinator.start paused) inputs in
  let t := PauseCoordinator.thread_of reached.1 threadId in
  let interrupts :=
    PauseCoordinator.inFlight threadId PauseCoordinator.InterruptMessage reached.2 in
  let resumes :=
    PauseCoordinator.inFlight threadId PauseCoordinator.ResumeMessage reached.2 in
  let tag (o : PauseCoordinator.Output) := (threadId, o) in
  let state_in (s : PauseCoordinator.Session) :=
    PauseCoordinator.state (PauseCoordinator.thread_of s threadId) in
  let next (s : PauseCoordinator.Session) (i : PauseCoordinator.Input) :=
    PauseCoordinator.run s [(threadId, i)] in
  let called :=
    PauseCoordinator.run reached.1
      [PauseCoordinator.ThreadAdapter_interrupt threadId caller1;
       PauseCoordinator.ThreadAdapter_interrupt threadId caller2] in
  let confirmed := next called.1 PauseCoordinator.NotifyInterrupted in
  let rejected := next called.1 PauseCoordinator.NotifyInterruptFailed in
  interrupts
  = (if PauseCoordinator.state t is PauseCoordinator.Interrupting then 1 else 0)%nat
  ∧ resumes
    = (if PauseCoordinator.state t is PauseCoordinator.Resuming then 1 else 0)%nat
  ∧ (interrupts ≤ 1)%nat
  ∧ (resumes ≤ 1)%nat
  ∧ match PauseCoordinator.state t with
    | PauseCoordinator.Running =>
        PauseCoordinator.visible called.2
        = [tag (PauseCoordinator.Sent PauseCoordinator.InterruptMessage)]
        ∧ state_in called.1 = PauseCoordinator.Interrupting
        ∧ PauseCoordinator.visible confirmed.2
          = [tag (PauseCoordinator.Resolves caller1);
             tag (PauseCoordinator.Resolves caller2)]
        ∧ state_in confirmed.1 = PauseCoordinator.Paused
        ∧ PauseCoordinator.visible rejected.2
          = [tag (PauseCoordinator.Fails caller1);
             tag (PauseCoordinator.Fails caller2)]
        ∧ state_in rejected.1 = PauseCoordinator.Running
    | PauseCoordinator.Interrupting =>
        PauseCoordinator.visible called.2 = []
        ∧ state_in called.1 = PauseCoordinator.Interrupting
        ∧ PauseCoordinator.visible confirmed.2
          = tag <$> (PauseCoordinator.Resolves
                       <$> PauseCoordinator.interruptWaiters t ++ [caller1; caller2])
        ∧ state_in confirmed.1 = PauseCoordinator.Paused
        ∧ PauseCoordinator.visible rejected.2
          = tag <$> (PauseCoordinator.Fails
                       <$> PauseCoordinator.interruptWaiters t ++ [caller1; caller2])
        ∧ state_in rejected.1 = PauseCoordinator.Running
    | PauseCoordinator.Paused =>
        PauseCoordinator.visible called.2
        = [tag (PauseCoordinator.Resolves caller1);
           tag (PauseCoordinator.Resolves caller2)]
        ∧ state_in called.1 = PauseCoordinator.Paused
    | PauseCoordinator.Resuming =>
        let resumed := next called.1 PauseCoordinator.NotifyResumed in
        let interrupted := next resumed.1 PauseCoordinator.NotifyInterrupted in
        PauseCoordinator.visible called.2 = []
        ∧ state_in called.1 = PauseCoordinator.Resuming
        ∧ PauseCoordinator.visible resumed.2
          = (tag <$> (PauseCoordinator.Resolves <$> PauseCoordinator.resumeWaiters t))
            ++ [tag (PauseCoordinator.Sent PauseCoordinator.InterruptMessage)]
        ∧ state_in resumed.1 = PauseCoordinator.Interrupting
        ∧ PauseCoordinator.visible interrupted.2
          = tag <$> (PauseCoordinator.Resolves
                       <$> PauseCoordinator.queuedInterrupts t ++ [caller1; caller2])
        ∧ state_in interrupted.1 = PauseCoordinator.Paused
    end
  ∧ ∀ i : PauseCoordinator.Input,
      match PauseCoordinator.state t, PauseCoordinator.answered i with
      | PauseCoordinator.Interrupting, Some PauseCoordinator.InterruptMessage => True
      | PauseCoordinator.Interrupting, _ =>
          state_in (next reached.1 i).1 = PauseCoordinator.Interrupting
          ∧ PauseCoordinator.interruptWaiters t
            `prefix_of` PauseCoordinator.interruptWaiters
                          (PauseCoordinator.thread_of (next reached.1 i).1 threadId)
          ∧ (PauseCoordinator.visible (next reached.1 i).2 = []
             ∨ ∃ caller,
                 i = PauseCoordinator.RequestResume caller
                 ∧ PauseCoordinator.visible (next reached.1 i).2
                   = [tag (PauseCoordinator.Fails caller)])
      | _, _ => True
      end.
Proof.
  intros reached t interrupts resumes tag state_in next called confirmed rejected.
  assert (interrupts
          = (if PauseCoordinator.state t is PauseCoordinator.Interrupting
             then 1 else 0)%nat) as Hinterrupts.
  { unfold interrupts, reached. rewrite PauseCoordinatorFacts.inFlight_awaited.
    fold reached. fold t. unfold PauseCoordinator.awaited.
    by destruct (PauseCoordinator.state t). }
  assert (resumes
          = (if PauseCoordinator.state t is PauseCoordinator.Resuming
             then 1 else 0)%nat) as Hresumes.
  { unfold resumes, reached. rewrite PauseCoordinatorFacts.inFlight_awaited.
    fold reached. fold t. unfold PauseCoordinator.awaited.
    by destruct (PauseCoordinator.state t). }
  split_and!.
  - done.
  - done.
  - rewrite Hinterrupts. destruct (PauseCoordinator.state t); lia.
  - rewrite Hresumes. destruct (PauseCoordinator.state t); lia.
  - clear Hinterrupts Hresumes.
    destruct (PauseCoordinatorFacts.run_two reached.1 threadId
                (PauseCoordinator.RequestInterrupt caller1 PauseCoordinator.UserRequest)
                (PauseCoordinator.RequestInterrupt caller2 PauseCoordinator.UserRequest))
      as [Hcalled Hvisible].
    fold t in Hcalled, Hvisible.
    change (PauseCoordinator.run reached.1 _) with called in Hcalled, Hvisible.
    destruct (PauseCoordinatorFacts.run_one called.1 threadId
                PauseCoordinator.NotifyInterrupted) as [Hconfirmed Hconfirmed'].
    destruct (PauseCoordinatorFacts.run_one called.1 threadId
                PauseCoordinator.NotifyInterruptFailed) as [Hrejected Hrejected'].
    destruct (PauseCoordinatorFacts.run_one called.1 threadId
                PauseCoordinator.NotifyResumed) as [Hresumed Hresumed'].
    destruct (PauseCoordinatorFacts.run_one
                (next called.1 PauseCoordinator.NotifyResumed).1 threadId
                PauseCoordinator.NotifyInterrupted) as [Hinterrupted Hinterrupted'].
    unfold next in Hinterrupted, Hinterrupted'.
    rewrite Hresumed in Hinterrupted, Hinterrupted'.
    rewrite Hcalled in Hconfirmed, Hconfirmed', Hrejected, Hrejected', Hresumed,
      Hresumed', Hinterrupted, Hinterrupted'.
    cbn zeta. unfold state_in, confirmed, rejected, next.
    rewrite Hcalled, Hvisible, Hconfirmed, Hconfirmed', Hrejected, Hrejected',
      Hresumed, Hresumed', Hinterrupted, Hinterrupted'.
    clear. clearbody t. destruct t as [st r iw rw qi].
    destruct st; cbn.
    + split_and!; try done.
    + rewrite <- !(assoc_L (++)). by split_and!.
    + by split_and!.
    + rewrite <- !(assoc_L (++)).
      destruct qi; cbn; split_and!; try done; by rewrite fmap_app.
  - clear Hinterrupts Hresumes. intros i.
    destruct (PauseCoordinatorFacts.run_one reached.1 threadId i) as [Hnext Hnext'].
    fold t in Hnext, Hnext'. unfold state_in, next. rewrite Hnext, Hnext'.
    clear. clearbody t. destruct t as [st r iw rw qi].
    destruct st, i; cbn; try done; split_and!; try done.
    + by apply prefix_app_r.
    + by left.
    + right. by eexists.
    + by left.
    + by left.
Qed.

Lemma C7_interrupt_shared_witness :
  let resumed :=
    PauseCoordinator.run (PauseCoordinator.start {[7]})
      [(7, PauseCoordinator.RequestResume 0); (7, PauseCoordinator.NotifyResumed)] in
  let called :=
    PauseCoordinator.run resumed.1
      [PauseCoordinator.ThreadAdapter_interrupt 7 1;
       PauseCoordinator.ThreadAdapter_interrupt 7 2] in
  PauseCoordinator.inFlight 7 PauseCoordinator.ResumeMessage resumed.2 = 0
  ∧ PauseCoordinator.visible called.2
    = [(7, PauseCoordinator.Sent PauseCoordinator.InterruptMessage)]
  ∧ PauseCoordinator.visible
      (PauseCoordinator.run called.1 [(7, PauseCoordinator.NotifyInterrupted)]).2
    = [(7, PauseCoordinator.Resolves 1); (7, PauseCoordinator.Resolves 2)].
Proof.
  pose proof (C7_interrupt_shared {[7]}
                [(7, PauseCoordinator.RequestResume 0); (7, PauseCoordinator.NotifyResumed)]
                7 1 2) as H.
  cbn zeta in H.
  destruct H as (_ & Hresumes & _ & _ & Hcalls & _).
  assert (PauseCoordinator.state
            (PauseCoordinator.thread_of
               (PauseCoordinator.run (PauseCoordinator.start {[7]})
                  [(7, PauseCoordinator.RequestResume 0);
                   (7, PauseCoordinator.NotifyResumed)]).1 7)
          = PauseCoordinator.Running) as Hstate by (by vm_compute).
  rewrite Hstate in Hresumes, Hcalls.
  destruct Hcalls as (Hvisible & _ & Hconfirmed & _).
  cbn zeta. split_and!; [exact Hresumes | exact Hvisible | exact Hconfirmed].
Defined.

(** ** Further properties of the grip index *)

Lemma tidy_new : tidy new_World.
Proof.
  split; cbn.
  - apply NoDup_nil_2.
  - by intros a ?%elem_of_nil.
Qed.

Lemma tidy_step (w w' : World) : step w w' → consistent w → tidy w → tidy w'.
Proof.
  intros [w0 g tl|w0 s|w0 f|w0 peer] Hc [Hnd Hdp].
  - destruct (objectGripAdaptersByActorName (thread w0)
                !! FirefoxDebugProtocol.actor g) as [b|] eqn:Hlook.
    { rewrite (getOrCreate_present _ _ _ _ Hlook). by split. }
    rewrite (getOrCreate_absent _ _ _ Hlook). cbn zeta. cbn [snd].
    set (a := ObjectGripAdapter.new (length (constructed w0)) g tl).
    assert (Haddr : ObjectGripAdapter.address a = length (constructed w0))
      by reflexivity.
    clearbody a.
    assert (Hnew : a ∉ constructed w0).
    { intros Ha. apply (heap_addresses w0 Hc) in Ha.
      apply lookup_lt_Some in Ha. lia. }
    split; cbn.
    + destruct tl; [done|]. apply NoDup_app. split_and!; [done| |apply NoDup_singleton].
      intros b Hb ->%list_elem_of_singleton.
      by apply (release_list_exists w0 a Hc) in Hb as [? _].
    + intros b [Hb | ->%list_elem_of_singleton]%elem_of_app Hd; [by apply Hdp|].
      apply (disposed_constructed w0 Hc) in Hd. lia.
  - by split.
  - by split.
  - rewrite disposePauseLifetimeAdapters_run. split; cbn.
    + apply NoDup_nil_2.
    + intros b Hb [Hd | Hd]%elem_of_union; [|by apply Hdp].
      apply elem_of_list_to_set, list_elem_of_fmap in Hd as (c & Heq & Hcl).
      assert (b = c) as ->.
      { apply (address_inj w0); try done.
        by apply (release_list_exists w0 c Hc) in Hcl as [? _]. }
      by apply (release_list_sound w0 Hc) in Hcl as [? _].
Qed.

Lemma tidy_steps (w w' : World) : rtc step w w' → consistent w → tidy w → tidy w'.
Proof.
  induction 1 as [|w1 w2 w3 Hstep _ IH]; [done|].
  intros Hc Ht. apply IH; [by eapply consistent_step|by eapply tidy_step].
Qed.

Lemma reachable_tidy (w : World) : reachable w → tidy w.
Proof.
  intros Hw. eapply tidy_steps; [done|apply consistent_new|apply tidy_new].
Qed.



(** X2.  Running [disposePauseLifetimeAdapters] a second time, with
    nothing requested in between, resolves without sending a release
    request and leaves the index, the heap and the disposed proxies as
    the first run left them; the journal gains only the three clearing
    steps. *)
Theorem X2_dispose_twice (peer peer' : Peer) (w : World) :
  let w1 := (disposePauseLifetimeAdapters peer w).2 in
  disposePauseLifetimeAdapters peer' w1
  = (Resolved tt,
     {| thread := thread w1; constructed := constructed w1; disposed := disposed w1;
        journal := journal w1
                   ++ [PauseLifetimeObjectsCleared; ScopesCleared; FramesCleared] |}).
Proof.
  cbn zeta. rewrite !disposePauseLifetimeAdapters_run. cbn [snd].
  unfold cleaned at 1. cbn. f_equal. f_equal.
  by rewrite (left_id_L ∅ (∪)).
Qed.





(** The result of a lookup is what the index holds for the name
    afterwards. *)
Lemma getOrCreate_lookup_result grip threadLifetime (w : World) :
  objectGripAdaptersByActorName
    (thread (getOrCreateObjectGripAdapter grip threadLifetime w).2)
    !! FirefoxDebugProtocol.actor grip
  = Some (getOrCreateObjectGripAdapter grip threadLifetime w).1.
Proof.
  destruct (objectGripAdaptersByActorName (thread w)
              !! FirefoxDebugProtocol.actor grip) as [b|] eqn:Hlook.
  - by rewrite (getOrCreate_present _ _ _ _ Hlook).
  - rewrite (getOrCreate_absent _ _ _ Hlook). cbn. by rewrite lookup_insert_eq.
Qed.

(** X5.  A lookup for one actor name disturbs nothing else.  Whatever the
    world, [getOrCreateObjectGripAdapter] leaves the entries of all other
    names, the cached frames and scopes, the disposed proxies and the
    journal as they were, indexes its result under the grip's actor name,
    constructs at most one proxy, and adds to the release list at most
    that new proxy, and only when it is pause-lifetime. *)
Theorem X5_getOrCreate_frame (grip : FirefoxDebugProtocol.ObjectGrip)
    (threadLifetime : bool) (w : World) :
  let r := getOrCreateObjectGripAdapter grip threadLifetime w in
  (∀ n, n ≠ FirefoxDebugProtocol.actor grip →
        objectGripAdaptersByActorName (thread r.2) !! n
        = objectGripAdaptersByActorName (thread w) !! n)
  ∧ objectGripAdaptersByActorName (thread r.2) !! FirefoxDebugProtocol.actor grip
    = Some r.1
  ∧ frames (thread r.2) = frames (thread w)
  ∧ scopes (thread r.2) = scopes (thread w)
  ∧ disposed r.2 = disposed w
  ∧ journal r.2 = journal w
  ∧ (constructed r.2 = constructed w
     ∧ pauseLifetimeObjects (thread r.2) = pauseLifetimeObjects (thread w)
     ∨ constructed r.2 = constructed w ++ [r.1]
       ∧ ObjectGripAdapter.isThreadLifetime r.1 = threadLifetime
       ∧ pauseLifetimeObjects (thread r.2)
         = pauseLifetimeObjects (thread w) ++ (if threadLifetime then [] else [r.1])).
Proof.
  cbn zeta.
  destruct (objectGripAdaptersByActorName (thread w)
              !! FirefoxDebugProtocol.actor grip) as [b|] eqn:Hlook.
  - rewrite (getOrCreate_present _ _ _ _ Hlook). cbn [fst snd].
    split_and!; try done. by left.
  - rewrite (getOrCreate_absent _ _ _ Hlook). cbn zeta. cbn [fst snd]. cbn.
    split_and!; try done.
    + intros n Hn. by rewrite lookup_insert_ne.
    + by rewrite lookup_insert_eq.
    + right. split_and!; try done. destruct threadLifetime; [|done].
      by rewrite app_nil_r.
Qed.

Lemma X5_getOrCreate_frame_witness :
  let w := (getOrCreateObjectGripAdapter (object_grip "Object" "server1.conn0.obj12")
              false new_World).2 in
  let r := getOrCreateObjectGripAdapter (object_grip "Array" "server1.conn0.obj13")
             true w in
  "server1.conn0.obj12" ≠ "server1.conn0.obj13"
  ∧ objectGripAdaptersByActorName (thread r.2) !! "server1.conn0.obj12"
    = objectGripAdaptersByActorName (thread w) !! "server1.conn0.obj12".
Proof.
  intros w r.
  assert ("server1.conn0.obj12" ≠ "server1.conn0.obj13") as H by done.
  split; [exact H|].
  exact (proj1 (X5_getOrCreate_frame (object_grip "Array" "server1.conn0.obj13") true w)
           "server1.conn0.obj12" H).
Defined.

(** Whether a grip is an object grip, the only kind the [switch] of
    [fromGrip] hands to the thread adapter. *)
Lemma fromGrip_cases (Number : Type) (Number_toString : Number → string)
    (varname : string) (grip : Grip Number) (threadLifetime : bool) (w : World) :
  (∃ g, grip = Complex g ∧ FirefoxDebugProtocol.type g = "object"
        ∧ fromGrip Number Number_toString varname grip threadLifetime w
          = ({| VariableAdapter.varname := varname;
                VariableAdapter.value := FirefoxDebugProtocol.class g;
                VariableAdapter.objectGripAdapter :=
                  Some (getOrCreateObjectGripAdapter g threadLifetime w).1 |},
             (getOrCreateObjectGripAdapter g threadLifetime w).2))
  ∨ ((∀ g, grip = Complex g → FirefoxDebugProtocol.type g ≠ "object")
     ∧ ∃ value, fromGrip Number Number_toString varname grip threadLifetime w
                = (VariableAdapter.new varname value, w)).
Proof.
  destruct grip as [b|n|s|g]; cbn [fromGrip];
    try (right; split; [by intros g [=]|by eexists]).
  case_bool_decide as H1.
  { right. split; [|by eexists]. intros g' [= <-] Hty. rewrite Hty in H1.
    by apply (bool_decide_pack _) in H1. }
  case_bool_decide as H2.
  { right. split; [|by eexists]. intros g' [= <-] Hty. by rewrite Hty in H2. }
  case_bool_decide as H3.
  { right. split; [|by eexists]. intros g' [= <-] Hty. by rewrite Hty in H3. }
  case_bool_decide as H4.
  - left. exists g. split_and!; try done.
    by destruct (getOrCreateObjectGripAdapter g threadLifetime w).
  - right. split; [|by eexists]. by intros g' [= <-].
Qed.

(** X6.  [fromGrip] hands only object grips to the thread adapter.  The
    variable it returns keeps the name it was given; the editor can expand
    it (it has a variables reference) exactly when the grip's type is
    ["object"], and then it shows the grip's class; for every other grip
    the thread adapter is left as it was. *)
Theorem X6_fromGrip_object_only (Number : Type) (Number_toString : Number → string)
    (varname : string) (grip : Grip Number) (threadLifetime : bool) (w : World) :
  let r := fromGrip Number Number_toString varname grip threadLifetime w in
  let is_object := ∃ g, grip = Complex g ∧ FirefoxDebugProtocol.type g = "object" in
  VariableAdapter.varname r.1 = varname
  ∧ (is_Some (DebugVariable.variablesReference (VariableAdapter.getVariable r.1))
     ↔ is_object)
  ∧ (∀ g, grip = Complex g → FirefoxDebugProtocol.type g = "object" →
          VariableAdapter.value r.1 = FirefoxDebugProtocol.class g
          ∧ objectGripAdaptersByActorName (thread r.2) !! FirefoxDebugProtocol.actor g
            = VariableAdapter.objectGripAdapter r.1)
  ∧ (¬ is_object → r.2 = w ∧ VariableAdapter.objectGripAdapter r.1 = None).
Proof.
  cbn zeta.
  destruct (fromGrip_cases Number Number_toString varname grip threadLifetime w)
    as [(g & -> & Hty & ->)|[Hno [value ->]]]; cbn [fst snd]; cbn.
  - split_and!; try done.
    + split; [|by eexists]. intros _. by exists g.
    + intros g' [= <-] _. split; [done|].
      by rewrite getOrCreate_lookup_result.
    + intros []. by exists g.
  - split_and!; try done.
    + split; [by intros [? ?]|]. intros (g & -> & Hty). by destruct (Hno g).
    + intros g -> Hty. by destruct (Hno g).
Qed.

Lemma fromGrip_object (Number : Type) (Number_toString : Number → string)
    (varname : string) (g : FirefoxDebugProtocol.ComplexGrip)
    (threadLifetime : bool) (w : World) :
  FirefoxDebugProtocol.type g = "object" →
  fromGrip Number Number_toString varname (Complex g) threadLifetime w
  = ({| VariableAdapter.varname := varname;
        VariableAdapter.value := FirefoxDebugProtocol.class g;
        VariableAdapter.objectGripAdapter :=
          Some (getOrCreateObjectGripAdapter g threadLifetime w).1 |},
     (getOrCreateObjectGripAdapter g threadLifetime w).2).
Proof.
  intros Hty.
  destruct (fromGrip_cases Number Number_toString varname (Complex g) threadLifetime w)
    as [(g' & [= <-] & _ & ->)|[Hno _]]; [done|].
  by destruct (Hno g).
Qed.

(** The world after [fromGrip] is the one before or one lookup away. *)
Lemma fromGrip_steps (Number : Type) (Number_toString : Number → string)
    (varname : string) (grip : Grip Number) (threadLifetime : bool) (w : World) :
  rtc step w (fromGrip Number Number_toString varname grip threadLifetime w).2.
Proof.
  destruct (fromGrip_cases Number Number_toString varname grip threadLifetime w)
    as [(g & -> & Hty & ->)|[Hno [value ->]]]; cbn [snd].
  - apply rtc_once, step_getOrCreate.
  - apply rtc_refl.
Qed.

(** X7.  Two variables made from object grips that name the same actor
    share one grip proxy, whatever names, classes and lifetime flags the
    two calls carry: the second call finds the proxy of the first, changes
    nothing in the thread adapter, and still shows its own grip's class. *)
Theorem X7_variables_share_grip (Number : Type) (Number_toString : Number → string)
    (varname1 varname2 : string) (g1 g2 : FirefoxDebugProtocol.ComplexGrip)
    (threadLifetime1 threadLifetime2 : bool) (w : World)
    (H1 : FirefoxDebugProtocol.type g1 = "object")
    (H2 : FirefoxDebugProtocol.type g2 = "object")
    (Hactor : FirefoxDebugProtocol.actor g2 = FirefoxDebugProtocol.actor g1) :
  let r1 := fromGrip Number Number_toString varname1 (Complex g1) threadLifetime1 w in
  let r2 := fromGrip Number Number_toString varname2 (Complex g2) threadLifetime2 r1.2 in
  is_Some (VariableAdapter.objectGripAdapter r1.1)
  ∧ VariableAdapter.objectGripAdapter r2.1 = VariableAdapter.objectGripAdapter r1.1
  ∧ r2.2 = r1.2
  ∧ VariableAdapter.value r2.1 = FirefoxDebugProtocol.class g2
  ∧ DebugVariable.variablesReference (VariableAdapter.getVariable r2.1)
    = DebugVariable.variablesReference (VariableAdapter.getVariable r1.1).
Proof.
  cbn zeta. rewrite (fromGrip_object _ _ varname1 g1 _ _ H1). cbn [fst snd].
  rewrite (fromGrip_object _ _ varname2 g2 _ _ H2). cbn [fst snd].
  pose proof (getOrCreate_lookup_result g1 threadLifetime1 w) as Hix.
  rewrite <- Hactor in Hix.
  rewrite (getOrCreate_present _ _ _ _ Hix). cbn.
  split_and!; done.
Qed.

Lemma X7_variables_share_grip_witness :
  let g1 := object_grip "Object" "server1.conn0.obj12" in
  let g2 := object_grip "Window" "server1.conn0.obj12" in
  let r1 := fromGrip Z Integer_toString "a" (Complex g1) false new_World in
  let r2 := fromGrip Z Integer_toString "b" (Complex g2) true r1.2 in
  FirefoxDebugProtocol.type g1 = "object"
  ∧ FirefoxDebugProtocol.type g2 = "object"
  ∧ FirefoxDebugProtocol.actor g2 = FirefoxDebugProtocol.actor g1
  ∧ r2.2 = r1.2.
Proof.
  intros g1 g2 r1 r2.
  assert (FirefoxDebugProtocol.type g1 = "object") as H1 by reflexivity.
  assert (FirefoxDebugProtocol.type g2 = "object") as H2 by reflexivity.
  assert (FirefoxDebugProtocol.actor g2 = FirefoxDebugProtocol.actor g1) as H3
    by reflexivity.
  split_and!; [exact H1|exact H2|exact H3|].
  exact (proj1 (proj2 (proj2 (X7_variables_share_grip Z Integer_toString "a" "b"
                                g1 g2 false true new_World H1 H2 H3)))).
Defined.



(** A lookup that asks for a thread-lifetime proxy leaves the release
    list, the journal and the disposed proxies alone, and constructs
    nothing but thread-lifetime proxies. *)
Lemma getOrCreate_thread_lifetime grip (w : World) :
  let r := getOrCreateObjectGripAdapter grip true w in
  pauseLifetimeObjects (thread r.2) = pauseLifetimeObjects (thread w)
  ∧ journal r.2 = journal w
  ∧ disposed r.2 = disposed w
  ∧ (∀ a, a ∈ constructed r.2 →
          a ∈ constructed w ∨ ObjectGripAdapter.isThreadLifetime a = true).
Proof.
  cbn zeta.
  destruct (objectGripAdaptersByActorName (thread w)
              !! FirefoxDebugProtocol.actor grip) as [b|] eqn:Hlook.
  - rewrite (getOrCreate_present _ _ _ _ Hlook). cbn [snd]. split_and!; auto.
  - rewrite (getOrCreate_absent _ _ _ Hlook). cbn. split_and!; try done.
    intros a [?| ->%list_elem_of_singleton]%elem_of_app; [by left|by right].
Qed.

(** X9.  [consoleEvaluate] on a thread without console is rejected with a
    [TypeError] and touches nothing; an evaluation the peer refuses is
    rejected with the peer's error and touches nothing; otherwise it
    resolves, and whatever the result it puts nothing on the release
    list, sends no request for the grip and disposes nothing, and a proxy
    it constructs is thread-lifetime. *)
Theorem X9_consoleEvaluate (Number : Type) (Number_toString : Number → string)
    (expr : string) (frameActorName : option string) (w : World) :
  consoleEvaluate Number Number_toString None expr frameActorName w
  = (Rejected "TypeError", w)
  ∧ (∀ consoleActor_evaluate err,
       consoleActor_evaluate expr frameActorName = Rejected err →
       consoleEvaluate Number Number_toString (Some consoleActor_evaluate)
         expr frameActorName w
       = (Rejected err, w))
  ∧ (∀ consoleActor_evaluate grip,
       consoleActor_evaluate expr frameActorName = Resolved grip →
       let r := consoleEvaluate Number Number_toString (Some consoleActor_evaluate)
                  expr frameActorName w in
       r.1 = Resolved (VariableAdapter.getVariable
                         (variableFromGrip Number Number_toString grip true w).1)
       ∧ pauseLifetimeObjects (thread r.2) = pauseLifetimeObjects (thread w)
       ∧ journal r.2 = journal w
       ∧ disposed r.2 = disposed w
       ∧ (∀ a, a ∈ constructed r.2 → a ∈ constructed w
               ∨ lifetime a = ThreadLifetime)).
Proof.
  split_and!.
  - reflexivity.
  - intros ev err Hev. unfold consoleEvaluate, bind. by rewrite Hev.
  - intros ev grip Hev. cbn zeta. unfold consoleEvaluate, bind, sync. rewrite Hev.
    destruct grip as [grip|]; cbn [variableFromGrip]; [|by split_and!; try done; auto].
    destruct (fromGrip_cases Number Number_toString EmptyString grip true w)
      as [(g & -> & Hty & Heq)|[Hno [value Heq]]]; rewrite Heq; cbn [fst snd ret].
    + destruct (getOrCreate_thread_lifetime g w) as (Hl & Hj & Hd & Hc).
      cbn zeta in *. split_and!; try done.
      intros a [?|Hfl]%Hc; [by left|]. right. unfold lifetime. by rewrite Hfl.
    + split_and!; try done. auto.
Qed.

Lemma X9_consoleEvaluate_witness :
  let console : string → option string → outcome (option (Grip Z)) :=
    λ _ _, Rejected "unknownError" in
  console "document.title" None = Rejected "unknownError"
  ∧ consoleEvaluate Z Integer_toString (Some console) "document.title" None new_World
    = (Rejected "unknownError", new_World).
Proof.
  intros console.
  assert (console "document.title" None = Rejected "unknownError") as H
    by reflexivity.
  split; [exact H|].
  exact (proj1 (proj2 (X9_consoleEvaluate Z Integer_toString "document.title" None
                         new_World)) console "unknownError" H).
Defined.

(** ** Sources *)

Lemma findSourceAdapterForActorName_first (actorName : string)
    (sources : list SourceAdapter.t) :
  match findSourceAdapterForActorName actorName sources with
  | Some sourceAdapter =>
      ∃ before after, sources = before ++ sourceAdapter :: after
        ∧ SourceActorProxy.name (SourceAdapter.actor sourceAdapter) = actorName
        ∧ ∀ x, x ∈ before →
               SourceActorProxy.name (SourceAdapter.actor x) ≠ actorName
  | None =>
      ∀ x, x ∈ sources → SourceActorProxy.name (SourceAdapter.actor x) ≠ actorName
  end.
Proof.
  induction sources as [|sa sources IH]; cbn [findSourceAdapterForActorName].
  - by intros x ?%elem_of_nil.
  - case_bool_decide as Hn.
    + exists [], sources. split_and!; [done|done|]. by intros x ?%elem_of_nil.
    + destruct (findSourceAdapterForActorName actorName sources) as [found|].
      * destruct IH as (before & after & -> & Hname & Hfirst).
        exists (sa :: before), after. split_and!; [done|done|].
        intros x [->|?]%elem_of_cons; [done|by apply Hfirst].
      * intros x [->|?]%elem_of_cons; [done|by apply IH].
Qed.

Lemma findSourceAdapterForActorName_app (actorName : string)
    (sources more : list SourceAdapter.t) :
  findSourceAdapterForActorName actorName (sources ++ more)
  = match findSourceAdapterForActorName actorName sources with
    | Some sourceAdapter => Some sourceAdapter
    | None => findSourceAdapterForActorName actorName more
    end.
Proof.
  induction sources as [|sa sources IH]; cbn [app findSourceAdapterForActorName];
    [done|].
  by case_bool_decide.
Qed.

(** X10.  [findSourceAdapterForActorName] returns the first source adapter
    whose actor has the name, and nothing exactly when no adapter has it.
    [createSourceAdapter] appends, so it never changes the answer for a
    name that was already found, and for a name not found before the new
    adapter is the answer exactly when its actor has that name. *)
Theorem X10_source_lookup_by_actor (actorName : string)
    (sources : list SourceAdapter.t) :
  match findSourceAdapterForActorName actorName sources with
  | Some sourceAdapter =>
      ∃ before after, sources = before ++ sourceAdapter :: after
        ∧ SourceActorProxy.name (SourceAdapter.actor sourceAdapter) = actorName
        ∧ ∀ x, x ∈ before →
               SourceActorProxy.name (SourceAdapter.actor x) ≠ actorName
  | None =>
      ∀ x, x ∈ sources → SourceActorProxy.name (SourceAdapter.actor x) ≠ actorName
  end
  ∧ (∀ id actor path,
       let r := createSourceAdapter id actor path sources in
       r.1 ∈ r.2
       ∧ findSourceAdapterForActorName actorName r.2
         = match findSourceAdapterForActorName actorName sources with
           | Some sourceAdapter => Some sourceAdapter
           | None => if bool_decide (SourceActorProxy.name actor = actorName)
                     then Some r.1 else None
           end).
Proof.
  split; [apply findSourceAdapterForActorName_first|].
  intros id actor path. cbn zeta. unfold createSourceAdapter. cbn [fst snd]. split.
  - apply elem_of_app. right. apply list_elem_of_here.
  - by rewrite findSourceAdapterForActorName_app.
Qed.

Lemma find_by_url_first (url : option string) (sources : list SourceAdapter.t) :
  match find_by_url url sources with
  | Some sourceAdapter =>
      ∃ before after, sources = before ++ sourceAdapter :: after
        ∧ FirefoxSource.url (SourceActorProxy.source
                               (SourceAdapter.actor sourceAdapter)) = url
        ∧ ∀ x, x ∈ before →
               FirefoxSource.url (SourceActorProxy.source (SourceAdapter.actor x))
               ≠ url
  | None =>
      ∀ x, x ∈ sources →
           FirefoxSource.url (SourceActorProxy.source (SourceAdapter.actor x)) ≠ url
  end.
Proof.
  induction sources as [|sa sources IH]; cbn [find_by_url].
  - by intros x ?%elem_of_nil.
  - case_bool_decide as Hn.
    + exists [], sources. split_and!; [done|done|]. by intros x ?%elem_of_nil.
    + destruct (find_by_url url sources) as [found|].
      * destruct IH as (before & after & -> & Hname & Hfirst).
        exists (sa :: before), after. split_and!; [done|done|].
        intros x [->|?]%elem_of_cons; [done|by apply Hfirst].
      * intros x [->|?]%elem_of_cons; [done|by apply IH].
Qed.

(** X11.  [findCorrespondingSourceAdapter] never matches a source without
    url or with an empty url, not even against a source adapter whose own
    url is missing or empty.  For any other source it returns the first
    source adapter whose actor's source has the same url, and nothing
    exactly when there is none. *)
Theorem X11_source_lookup_by_url (source : FirefoxSource.t)
    (sources : list SourceAdapter.t) :
  (falsy (FirefoxSource.url source) = true →
   findCorrespondingSourceAdapter source sources = None)
  ∧ (falsy (FirefoxSource.url source) = false →
     match findCorrespondingSourceAdapter source sources with
     | Some sourceAdapter =>
         ∃ before after, sources = before ++ sourceAdapter :: after
           ∧ FirefoxSource.url (SourceActorProxy.source
                                  (SourceAdapter.actor sourceAdapter))
             = FirefoxSource.url source
           ∧ ∀ x, x ∈ before →
                  FirefoxSource.url (SourceActorProxy.source (SourceAdapter.actor x))
                  ≠ FirefoxSource.url source
     | None =>
         ∀ x, x ∈ sources →
              FirefoxSource.url (SourceActorProxy.source (SourceAdapter.actor x))
              ≠ FirefoxSource.url source
     end)
  ∧ (∀ sourceAdapter,
       findCorrespondingSourceAdapter source sources = Some sourceAdapter →
       falsy (FirefoxSource.url (SourceActorProxy.source
                                   (SourceAdapter.actor sourceAdapter))) = false).
Proof.
  unfold findCorrespondingSourceAdapter. split_and!.
  - by intros ->.
  - intros ->. apply find_by_url_first.
  - intros sa. destruct (falsy (FirefoxSource.url source)) eqn:Hf; [done|].
    intros Hfind. pose proof (find_by_url_first (FirefoxSource.url source) sources) as H.
    rewrite Hfind in H. destruct H as (_ & _ & _ & -> & _). done.
Qed.

Lemma X11_source_lookup_by_url_witness :
  let anonymous := {| FirefoxSource.actor := "server1.conn0.source7";
                      FirefoxSource.url := None;
                      FirefoxSource.isBlackBoxed := false |} in
  let sources := [SourceAdapter.new 1
                    {| SourceActorProxy.name := "server1.conn0.source7";
                       SourceActorProxy.source := anonymous |} None] in
  falsy (FirefoxSource.url anonymous) = true
  ∧ findCorrespondingSourceAdapter anonymous sources = None.
Proof.
  intros anonymous sources.
  assert (falsy (FirefoxSource.url anonymous) = true) as H by reflexivity.
  split; [exact H|].
  exact (proj1 (X11_source_lookup_by_url anonymous sources) H).
Defined.

(** X12.  [findSourceAdaptersForPath] returns nothing for a missing or
    empty path, also when source adapters without path exist; for any
    other path it returns, in their order, exactly the source adapters with
    that path.  After [createSourceAdapter] the answer is the one before,
    followed by the new adapter when it has the path. *)
Theorem X12_sources_for_path (path : option string)
    (sources : list SourceAdapter.t) :
  (∀ sourceAdapter,
     sourceAdapter ∈ findSourceAdaptersForPath path sources
     ↔ falsy path = false ∧ sourceAdapter ∈ sources
       ∧ SourceAdapter.sourcePath sourceAdapter = path)
  ∧ findSourceAdaptersForPath path sources `sublist_of` sources
  ∧ (∀ id actor path',
       findSourceAdaptersForPath path (createSourceAdapter id actor path' sources).2
       = findSourceAdaptersForPath path sources
         ++ (if falsy path then []
             else if bool_decide (path' = path)
                  then [(createSourceAdapter id actor path' sources).1] else [])).
Proof.
  unfold findSourceAdaptersForPath. split_and!.
  - intros sa. destruct (falsy path).
    + split; [by intros ?%elem_of_nil|by intros [? _]].
    + rewrite list_elem_of_filter. split; [by intros [? ?]|by intros (_ & ? & ?)].
  - destruct (falsy path); [apply sublist_nil_l|apply sublist_filter].
  - intros id actor path'. unfold createSourceAdapter. cbn [fst snd].
    destruct (falsy path); [done|].
    rewrite filter_app. f_equal. cbn.
    unfold filter, list_filter. cbn. by repeat case_decide; case_bool_decide.
Qed.

Lemma findSourceAdapterForActorName_found (actorName : string)
    (before after : list SourceAdapter.t) (sourceAdapter : SourceAdapter.t) :
  SourceActorProxy.name (SourceAdapter.actor sourceAdapter) = actorName →
  (∀ x, x ∈ before → SourceActorProxy.name (SourceAdapter.actor x) ≠ actorName) →
  findSourceAdapterForActorName actorName (before ++ sourceAdapter :: after)
  = Some sourceAdapter.
Proof.
  intros Hname Hbefore.
  induction before as [|x before IH]; cbn [app findSourceAdapterForActorName].
  - by rewrite bool_decide_true.
  - rewrite bool_decide_false by (apply Hbefore, list_elem_of_here).
    apply IH. intros y Hy. by apply Hbefore, list_elem_of_further.
Qed.

(** X13.  [shouldSkip] looks only at the actor name of the source it is
    given: two sources with the same actor get the same answer, whatever
    their own url and black-box flag.  The answer is the black-box flag of
    the first source adapter registered for that actor, whatever comes
    before and after it in the list, and [false] when none is registered.
    So the answer is [true] exactly when a source adapter is registered
    for the actor and the first such adapter is black-boxed, and [false]
    exactly when none is registered or the first one is not
    black-boxed. *)
Theorem X13_shouldSkip (source : FirefoxSource.t) (sources : list SourceAdapter.t) :
  let first_is (sourceAdapter : SourceAdapter.t) :=
    ∃ before after,
      sources = before ++ sourceAdapter :: after
      ∧ SourceActorProxy.name (SourceAdapter.actor sourceAdapter)
        = FirefoxSource.actor source
      ∧ ∀ x, x ∈ before →
             SourceActorProxy.name (SourceAdapter.actor x)
             ≠ FirefoxSource.actor source in
  let none_registered :=
    ∀ x, x ∈ sources →
         SourceActorProxy.name (SourceAdapter.actor x) ≠ FirefoxSource.actor source in
  (∀ source', FirefoxSource.actor source' = FirefoxSource.actor source →
              shouldSkip source' sources = shouldSkip source sources)
  ∧ (none_registered → shouldSkip source sources = false)
  ∧ (∀ sourceAdapter,
       first_is sourceAdapter →
       shouldSkip source sources
       = FirefoxSource.isBlackBoxed
           (SourceActorProxy.source (SourceAdapter.actor sourceAdapter)))
  ∧ (shouldSkip source sources = true
     ↔ ∃ sourceAdapter,
         first_is sourceAdapter
         ∧ FirefoxSource.isBlackBoxed
             (SourceActorProxy.source (SourceAdapter.actor sourceAdapter)) = true)
  ∧ (shouldSkip source sources = false
     ↔ none_registered
       ∨ ∃ sourceAdapter,
           first_is sourceAdapter
           ∧ FirefoxSource.isBlackBoxed
               (SourceActorProxy.source (SourceAdapter.actor sourceAdapter)) = false)
  ∧ (none_registered ∨ ∃ sourceAdapter, first_is sourceAdapter).
Proof.
  intros first_is none_registered.
  assert (∀ sa, first_is sa →
            shouldSkip source sources
            = FirefoxSource.isBlackBoxed
                (SourceActorProxy.source (SourceAdapter.actor sa))) as Hfirst.
  { intros sa (before & after & -> & Hname & Hbefore). unfold shouldSkip.
    by rewrite findSourceAdapterForActorName_found. }
  assert (none_registered → shouldSkip source sources = false) as Hnone.
  { intros Hnone. unfold shouldSkip.
    pose proof (findSourceAdapterForActorName_first (FirefoxSource.actor source)
                  sources) as H.
    destruct (findSourceAdapterForActorName _ sources) as [sa|]; [|done].
    destruct H as (before & after & -> & Hname & _).
    destruct (Hnone sa); [|done]. apply elem_of_app. right. apply list_elem_of_here. }
  assert (none_registered ∨ ∃ sa, first_is sa) as Hcases.
  { pose proof (findSourceAdapterForActorName_first (FirefoxSource.actor source)
                  sources) as H.
    destruct (findSourceAdapterForActorName _ sources) as [sa|]; [|by left].
    right. exists sa. destruct H as (before & after & ? & ? & ?).
    by exists before, after. }
  split_and!.
  - unfold shouldSkip. by intros source' ->.
  - exact Hnone.
  - exact Hfirst.
  - split.
    + intros Htrue. destruct Hcases as [Hn|[sa Hsa]].
      * rewrite (Hnone Hn) in Htrue. done.
      * exists sa. split; [done|]. by rewrite <- (Hfirst sa Hsa).
    + intros (sa & Hsa & Hbb). by rewrite (Hfirst sa Hsa).
  - split.
    + intros Hfalse. destruct Hcases as [Hn|[sa Hsa]]; [by left|].
      right. exists sa. split; [done|]. by rewrite <- (Hfirst sa Hsa).
    + intros [Hn|(sa & Hsa & Hbb)]; [by apply Hnone|]. by rewrite (Hfirst sa Hsa).
  - exact Hcases.
Qed.

Lemma X13_shouldSkip_witness :
  let source := {| FirefoxSource.actor := "server1.conn0.source7";
                   FirefoxSource.url := None;
                   FirefoxSource.isBlackBoxed := false |} in
  let adapter (id : nat) (actorName : string) (isBlackBoxed : bool) :=
    SourceAdapter.new id
      {| SourceActorProxy.name := actorName;
         SourceActorProxy.source :=
           {| FirefoxSource.actor := actorName;
              FirefoxSource.url := Some "http://localhost/lib.js";
              FirefoxSource.isBlackBoxed := isBlackBoxed |} |}
      None in
  let sources := [adapter 1 "server1.conn0.source3" false;
                  adapter 2 "server1.conn0.source7" true;
                  adapter 3 "server1.conn0.source7" false] in
  (∃ before after,
     sources = before ++ adapter 2 "server1.conn0.source7" true :: after
     ∧ SourceActorProxy.name
         (SourceAdapter.actor (adapter 2 "server1.conn0.source7" true))
       = FirefoxSource.actor source
     ∧ ∀ x, x ∈ before →
            SourceActorProxy.name (SourceAdapter.actor x) ≠ FirefoxSource.actor source)
  ∧ shouldSkip source sources = true.
Proof.
  intros source adapter sources.
  assert (∃ before after,
            sources = before ++ adapter 2 "server1.conn0.source7" true :: after
            ∧ SourceActorProxy.name
                (SourceAdapter.actor (adapter 2 "server1.conn0.source7" true))
              = FirefoxSource.actor source
            ∧ ∀ x, x ∈ before →
                   SourceActorProxy.name (SourceAdapter.actor x)
                   ≠ FirefoxSource.actor source) as H.
  { exists [adapter 1 "server1.conn0.source3" false],
      [adapter 3 "server1.conn0.source7" false].
    split_and!; [reflexivity|reflexivity|].
    intros x Hx. apply list_elem_of_singleton in Hx. by subst x. }
  split; [exact H|].
  exact (proj1 (proj2 (proj2 (X13_shouldSkip source sources))) _ H).
Defined.

(** ** Stack frame pages *)

Lemma requestedFrames_page {A} (l : list A) (start count : Z) :
  (0 ≤ start)%Z → (0 < count)%Z →
  requestedFrames l start count = take (Z.to_nat count) (drop (Z.to_nat start) l).
Proof.
  intros Hs Hc. unfold requestedFrames, Array_slice.
  rewrite (proj2 (Z.ltb_lt 0 count)) by done.
  rewrite !(proj2 (Z.ltb_ge _ 0)) by lia.
  destruct (decide (Z.of_nat (length l) ≤ start)%Z) as [Hout|Hin].
  - rewrite !Z.min_r by lia. rewrite Z.sub_diag, Nat2Z.id. cbn [Z.to_nat take].
    rewrite (drop_ge l (Z.to_nat start)) by lia. by rewrite take_nil.
  - rewrite (Z.min_l start) by lia.
    destruct (decide (start + count ≤ Z.of_nat (length l))%Z) as [Hfit|Hover].
    + rewrite Z.min_l by lia. f_equal. lia.
    + rewrite Z.min_r by lia.
      rewrite !take_ge; [done|rewrite length_drop; lia..].
Qed.

Lemma requestedFrames_rest {A} (l : list A) (start count : Z) :
  (0 ≤ start)%Z → (count ≤ 0)%Z →
  requestedFrames l start count = drop (Z.to_nat start) l.
Proof.
  intros Hs Hc. unfold requestedFrames, Array_slice.
  rewrite (proj2 (Z.ltb_ge 0 count)) by done.
  rewrite !(proj2 (Z.ltb_ge _ 0)) by lia.
  destruct (decide (Z.of_nat (length l) ≤ start)%Z) as [Hout|Hin].
  - rewrite Z.min_r by lia. rewrite Z.sub_diag, Nat2Z.id. cbn [Z.to_nat take].
    by rewrite (drop_ge l (Z.to_nat start)) by lia.
  - rewrite Z.min_l by lia. rewrite take_ge; [done|]. rewrite length_drop. lia.
Qed.

(** X14.  [fetchStackFrames] serves pages from the cached frames: when
    frames are cached it does not fetch again and leaves the thread as it
    was, and the count it reports is that of all frames, not of the page.
    With a start inside or beyond the frames and a positive count, the page
    is the [count] frames from [start] on, fewer at the end; with a count
    that is not positive it is everything from [start] on; a negative
    start counts from the last frame.  Consecutive pages add up: the page
    after a page continues it, and a first page followed by the rest gives
    all frames.  When nothing is cached and fetching fails, the failure is
    the result. *)
Theorem X14_fetchStackFrames_pages
    (fetchAllStackFrames : M World (list FrameAdapter.t)) (w : World) :
  let cached := frames (thread w) in
  (cached ≠ [] → ∀ start count,
     fetchStackFrames fetchAllStackFrames start count w
     = (Resolved (requestedFrames cached start count, length cached), w))
  ∧ (cached = [] → ∀ start count err w',
       fetchAllStackFrames w = (Rejected err, w') →
       fetchStackFrames fetchAllStackFrames start count w = (Rejected err, w'))
  ∧ (cached = [] → ∀ start count fetched w',
       fetchAllStackFrames w = (Resolved fetched, w') →
       fetchStackFrames fetchAllStackFrames start count w
       = (Resolved (requestedFrames fetched start count, length fetched), w'))
  ∧ (∀ (l : list FrameAdapter.t) start count, (0 ≤ start)%Z → (0 < count)%Z →
       requestedFrames l start count = take (Z.to_nat count) (drop (Z.to_nat start) l))
  ∧ (∀ (l : list FrameAdapter.t) start count, (0 ≤ start)%Z → (count ≤ 0)%Z →
       requestedFrames l start count = drop (Z.to_nat start) l)
  ∧ (∀ (l : list FrameAdapter.t) start, (start < 0)%Z →
       requestedFrames l start 0 = drop (length l - Z.to_nat (- start)) l)
  ∧ (∀ (l : list FrameAdapter.t) start count count2,
       (0 ≤ start)%Z → (0 < count)%Z → (0 < count2)%Z →
       requestedFrames l start count ++ requestedFrames l (start + count) count2
       = requestedFrames l start (count + count2))
  ∧ (∀ (l : list FrameAdapter.t) count, (0 < count)%Z →
       requestedFrames l 0 count ++ requestedFrames l count 0 = l).
Proof.
  cbn zeta. split_and!.
  - intros Hne start count. unfold fetchStackFrames, bind.
    rewrite bool_decide_true; [done|].
    destruct (frames (thread w)); [done|cbn; lia].
  - intros He start count err w' Hf. unfold fetchStackFrames, bind.
    rewrite bool_decide_false; [by rewrite Hf|]. rewrite He. cbn. lia.
  - intros He start count fetched w' Hf. unfold fetchStackFrames, bind.
    rewrite bool_decide_false; [by rewrite Hf|]. rewrite He. cbn. lia.
  - intros. by apply requestedFrames_page.
  - intros. by apply requestedFrames_rest.
  - intros l start Hs. unfold requestedFrames, Array_slice. cbn [Z.ltb Z.compare].
    rewrite (proj2 (Z.ltb_lt start 0)) by done.
    destruct (decide (Z.of_nat (length l) + start ≤ 0)%Z) as [Hall|Hsome].
    + rewrite Z.max_r by lia. rewrite Z.sub_0_r, Nat2Z.id. cbn [Z.to_nat drop].
      replace (length l - Z.to_nat (- start)) with 0 by lia. by rewrite take_ge.
    + rewrite Z.max_l by lia. rewrite take_ge by (rewrite length_drop; lia).
      f_equal. lia.
  - intros l start c1 c2 Hs H1 H2.
    rewrite !requestedFrames_page by lia.
    replace (Z.to_nat (start + c1)) with (Z.to_nat start + Z.to_nat c1) by lia.
    rewrite <- drop_drop, take_take_drop. f_equal. lia.
  - intros l count Hc.
    rewrite requestedFrames_page, requestedFrames_rest by lia.
    cbn [Z.to_nat drop]. apply take_drop.
Qed.

Lemma X14_fetchStackFrames_pages_witness :
  let frame := {| FrameAdapter.address := 0; FrameAdapter.getObjectGripAdapters := [] |} in
  let w := pushFrameAdapter frame new_World in
  frames (thread w) ≠ []
  ∧ fetchStackFrames (reject "wrongState") 0 20 w = (Resolved ([frame], 1), w).
Proof.
  intros frame w.
  assert (frames (thread w) ≠ []) as H by done.
  split; [exact H|].
  exact (proj1 (X14_fetchStackFrames_pages (reject "wrongState") w) H 0%Z 20%Z).
Defined.

(** ** More on the actor registry *)


(** X15.  The registry of a connection behaves as a finite map keyed by
    actor name.  After any calls, [register] makes the proxy the answer
    for its name and [unregister] makes its name unknown, and neither
    changes the answer for any other name; registering a proxy under a
    name that was unknown and unregistering it again restores the
    registry, and registering the same proxy twice is the same as once. *)
Theorem X15_registry_lookup (calls : list DebugConnection.Call)
    (actor : DebugConnection.ActorProxy) :
  let actors := DebugConnection.after calls in
  (∀ n, DebugConnection.Map_get (DebugConnection.register actor actors) n
        = if bool_decide (n = DebugConnection.name actor) then Some actor
          else DebugConnection.Map_get actors n)
  ∧ (∀ n, DebugConnection.Map_get (DebugConnection.unregister actor actors) n
          = if bool_decide (n = DebugConnection.name actor) then None
            else DebugConnection.Map_get actors n)
  ∧ (DebugConnection.Map_get actors (DebugConnection.name actor) = None →
     DebugConnection.unregister actor (DebugConnection.register actor actors)
     = actors)
  ∧ DebugConnection.register actor (DebugConnection.register actor actors)
    = DebugConnection.register actor actors.
Proof.
  intros actors.
  pose proof (DebugConnectionFacts.after_NoDup calls) as Hnd. fold actors in Hnd.
  unfold DebugConnection.register, DebugConnection.unregister. split_and!.
  - intros n. case_bool_decide as Hn.
    + subst n. apply DebugConnectionFacts.Map_get_set.
    + by apply DebugConnectionMoreFacts.Map_get_set_ne.
  - intros n. case_bool_decide as Hn.
    + subst n. by apply DebugConnectionFacts.Map_get_delete.
    + by apply DebugConnectionMoreFacts.Map_get_delete_ne.
  - apply DebugConnectionMoreFacts.Map_delete_set_absent.
  - apply DebugConnectionMoreFacts.Map_set_set.
Qed.

(** X16.  The registry knows proxies by name only.  When a second proxy
    is registered under the name of a first, messages from that name go to
    the second and the first gets none; and unregistering the first
    afterwards removes the registration of the second, so that messages
    from that name are logged as errors. *)
Theorem X16_registry_by_name_only (calls : list DebugConnection.Call)
    (first second : DebugConnection.ActorProxy)
    (isDebugEnabled : bool) (response : DebugConnection.Response)
    (Hname : DebugConnection.name first = DebugConnection.name second)
    (Hfrom : DebugConnection.from response = DebugConnection.name second) :
  let actors := DebugConnection.after calls in
  DebugConnection.onMessage isDebugEnabled
    (DebugConnection.register second (DebugConnection.register first actors)) response
  = (if isDebugEnabled then [DebugConnection.LogDebug response] else [])
    ++ [DebugConnection.ReceiveResponse second response]
  ∧ DebugConnection.onMessage isDebugEnabled
      (DebugConnection.unregister first
         (DebugConnection.register second (DebugConnection.register first actors)))
      response
    = [DebugConnection.LogError response].
Proof.
  intros actors.
  pose proof (DebugConnectionFacts.after_NoDup
                (calls ++ [DebugConnection.Register first;
                           DebugConnection.Register second])) as Hnd.
  unfold DebugConnection.after in Hnd. rewrite foldl_app in Hnd. cbn in Hnd.
  fold (DebugConnection.after calls) in Hnd. fold actors in Hnd.
  rewrite !DebugConnectionFacts.onMessage_dispatch, Hfrom. split.
  - unfold DebugConnection.register at 1.
    by rewrite DebugConnectionFacts.Map_get_set.
  - unfold DebugConnection.unregister. rewrite Hname.
    by rewrite DebugConnectionFacts.Map_get_delete.
Qed.

Lemma X16_registry_by_name_only_witness :
  let first := {| DebugConnection.name := "server1.conn0.tab1";
                  DebugConnection.address := 1 |} in
  let second := {| DebugConnection.name := "server1.conn0.tab1";
                   DebugConnection.address := 2 |} in
  let response := {| DebugConnection.from := "server1.conn0.tab1";
                     DebugConnection.payload := "tabNavigated" |} in
  DebugConnection.name first = DebugConnection.name second
  ∧ DebugConnection.from response = DebugConnection.name second
  ∧ DebugConnection.onMessage false
      (DebugConnection.unregister first
         (DebugConnection.register second
            (DebugConnection.register first (DebugConnection.after []))))
      response
    = [DebugConnection.LogError response].
Proof.
  intros first second response.
  assert (DebugConnection.name first = DebugConnection.name second) as H1
    by reflexivity.
  assert (DebugConnection.from response = DebugConnection.name second) as H2
    by reflexivity.
  split_and!; [exact H1|exact H2|].
  exact (proj2 (X16_registry_by_name_only [] first second false response H1 H2)).
Defined.

(** X17.  [getOrCreate] avoids a second proxy only if the factory
    registers the first.  When the factory leaves its product registered
    under the requested name, a second [getOrCreate] for that name returns
    the same proxy and does not run its factory; when the factory registers
    nothing and the name was unknown, the second call runs its factory
    again. *)
Theorem X17_getOrCreate_deduplicates_if_registered (actorName : string)
    (createActor createActor' : DebugConnection.ActorMap →
       DebugConnection.ActorProxy * DebugConnection.ActorMap)
    (actors : DebugConnection.ActorMap) :
  let r := DebugConnection.getOrCreate actorName createActor actors in
  (DebugConnection.Map_get (createActor actors).2 actorName
   = Some (createActor actors).1 →
   DebugConnection.getOrCreate actorName createActor' r.2 = (r.1, r.2))
  ∧ (DebugConnection.Map_get actors actorName = None →
     (createActor actors).2 = actors →
     r.2 = actors
     ∧ DebugConnection.getOrCreate actorName createActor' r.2
       = (Some (createActor' actors).1, (createActor' actors).2)).
Proof.
  cbn zeta. rewrite (DebugConnectionMoreFacts.getOrCreate_eq actorName createActor).
  destruct (DebugConnection.Map_get actors actorName) as [p|] eqn:Hget;
    cbn [fst snd]; split.
  - intros _. by rewrite DebugConnectionMoreFacts.getOrCreate_eq, Hget.
  - done.
  - intros Hreg. by rewrite DebugConnectionMoreFacts.getOrCreate_eq, Hreg.
  - intros _ Hsame. rewrite Hsame. split; [done|].
    by rewrite DebugConnectionMoreFacts.getOrCreate_eq, Hget.
Qed.

Lemma X17_getOrCreate_deduplicates_if_registered_witness :
  let thread := {| DebugConnection.name := "server1.conn0.thread3";
                   DebugConnection.address := 1 |} in
  let other := {| DebugConnection.name := "server1.conn0.thread3";
                  DebugConnection.address := 2 |} in
  let createActor := λ actors, (thread, DebugConnection.register thread actors) in
  let createActor' := λ actors, (other, DebugConnection.register other actors) in
  DebugConnection.Map_get (createActor []).2 "server1.conn0.thread3"
  = Some (createActor []).1
  ∧ DebugConnection.getOrCreate "server1.conn0.thread3" createActor'
      (DebugConnection.getOrCreate "server1.conn0.thread3" createActor []).2
    = (Some thread, [("server1.conn0.thread3", thread)]).
Proof.
  intros thread other createActor createActor'.
  assert (DebugConnection.Map_get (createActor []).2 "server1.conn0.thread3"
          = Some (createActor []).1) as H by reflexivity.
  split; [exact H|].
  exact (proj1 (X17_getOrCreate_deduplicates_if_registered "server1.conn0.thread3"
                  createActor createActor' []) H).
Defined.

(** ** Sorting variables *)

Lemma compareStrings_compare (s1 s2 : string) :
  compareStrings s1 s2
  = match String.compare s1 s2 with Lt => (-1)%Z | Eq => 0%Z | Gt => 1%Z end.
Proof.
  unfold compareStrings, String.ltb.
  destruct (String.compare s1 s2) eqn:Hc; [|done|].
  - apply String.compare_eq_iff in Hc as ->. by rewrite String.eqb_refl.
  - destruct (String.eqb s1 s2) eqn:He; [|done].
    apply String.eqb_eq in He as ->.
    pose proof (String.compare_antisym s2 s2) as Ha. rewrite Hc in Ha. done.
Qed.

Lemma compare_refl (s : string) : String.compare s s = Eq.
Proof.
  pose proof (String.compare_antisym s s) as Ha.
  by destruct (String.compare s s).
Qed.

Lemma compare_Lt_trans (s1 s2 s3 : string) :
  String.compare s1 s2 = Lt → String.compare s2 s3 = Lt → String.compare s1 s3 = Lt.
Proof.
  intros H1 H2. apply OrderedTypeEx.String_as_OT.cmp_lt.
  apply OrderedTypeEx.String_as_OT.cmp_lt in H1, H2.
  by eapply OrderedTypeEx.String_as_OT.lt_trans.
Qed.

Lemma compareStrings_le_trans (s1 s2 s3 : string) :
  (compareStrings s1 s2 ≤ 0)%Z → (compareStrings s2 s3 ≤ 0)%Z →
  (compareStrings s1 s3 ≤ 0)%Z.
Proof.
  rewrite !compareStrings_compare.
  destruct (String.compare s1 s2) eqn:H12; [|..].
  - apply String.compare_eq_iff in H12 as ->. done.
  - destruct (String.compare s2 s3) eqn:H23.
    + apply String.compare_eq_iff in H23 as ->. by rewrite H12.
    + by rewrite (compare_Lt_trans s1 s2 s3 H12 H23).
    + lia.
  - lia.
Qed.

Lemma compareStrings_antisym (s1 s2 : string) :
  compareStrings s2 s1 = (- compareStrings s1 s2)%Z.
Proof.
  rewrite !compareStrings_compare, (String.compare_antisym s1 s2).
  by destruct (String.compare s2 s1).
Qed.

(** X18.  [compareStrings] is a consistent comparator, which
    [Array.prototype.sort] needs to give a defined result: it returns -1,
    0 or 1; 0 exactly for equal strings; swapping the arguments negates
    the result; and [<=] according to it is transitive.  The order is that
    of the code units: the first position where two strings differ
    decides, and a proper prefix comes first. *)
Theorem X18_compareStrings_consistent (s1 s2 s3 : string) :
  (compareStrings s1 s2 = (-1)%Z ∨ compareStrings s1 s2 = 0%Z
   ∨ compareStrings s1 s2 = 1%Z)
  ∧ (compareStrings s1 s2 = 0%Z ↔ s1 = s2)
  ∧ compareStrings s2 s1 = (- compareStrings s1 s2)%Z
  ∧ ((compareStrings s1 s2 ≤ 0)%Z → (compareStrings s2 s3 ≤ 0)%Z →
     (compareStrings s1 s3 ≤ 0)%Z)
  ∧ compareStrings EmptyString EmptyString = 0%Z
  ∧ (∀ c, compareStrings EmptyString (String c s1) = (-1)%Z)
  ∧ (∀ c, compareStrings (String c s1) (String c s2) = compareStrings s1 s2)
  ∧ (∀ c1 c2, (Ascii.N_of_ascii c1 < Ascii.N_of_ascii c2)%N →
              compareStrings (String c1 s1) (String c2 s2) = (-1)%Z).
Proof.
  split_and!.
  - rewrite compareStrings_compare. destruct (String.compare s1 s2); auto.
  - rewrite compareStrings_compare. split.
    + destruct (String.compare s1 s2) eqn:Hc; [|done..].
      intros _. by apply String.compare_eq_iff.
    + intros ->. by rewrite compare_refl.
  - apply compareStrings_antisym.
  - apply compareStrings_le_trans.
  - reflexivity.
  - intros c. by rewrite compareStrings_compare.
  - intros c. rewrite !compareStrings_compare. cbn [String.compare].
    unfold Ascii.compare. by rewrite N.compare_refl.
  - intros c1 c2 Hlt. rewrite compareStrings_compare. cbn [String.compare].
    unfold Ascii.compare. by rewrite (proj2 (N.compare_lt_iff _ _) Hlt).
Qed.

Section ArraySort.
Context {A : Type} (compare : A → A → Z).

Lemma Array_sort_insert_Permutation (x : A) (l : list A) :
  Array_sort_insert compare x l ≡ₚ x :: l.
Proof.
  induction l as [|y l IH]; cbn; [done|].
  destruct (compare x y <=? 0)%Z; [done|]. rewrite IH. apply Permutation_swap.
Qed.

Lemma Array_sort_Permutation (l : list A) : Array_sort compare l ≡ₚ l.
Proof.
  unfold Array_sort. induction l as [|x l IH]; cbn [foldr]; [done|].
  rewrite Array_sort_insert_Permutation. by rewrite IH.
Qed.

Hypothesis compare_total : ∀ x y, (compare x y ≤ 0)%Z ∨ (compare y x ≤ 0)%Z.
Hypothesis compare_trans : ∀ x y z,
  (compare x y ≤ 0)%Z → (compare y z ≤ 0)%Z → (compare x z ≤ 0)%Z.

Lemma Array_sort_insert_sorted (x : A) (l : list A) :
  StronglySorted (λ a b, (compare a b ≤ 0)%Z) l →
  StronglySorted (λ a b, (compare a b ≤ 0)%Z) (Array_sort_insert compare x l).
Proof.
  induction l as [|y l IH]; cbn.
  - intros _. by repeat constructor.
  - intros [Hl Hy]%StronglySorted_inv.
    destruct (compare x y <=? 0)%Z eqn:Hxy.
    + apply Z.leb_le in Hxy. constructor; [by constructor|].
      constructor; [done|].
      eapply Forall_impl; [exact Hy|]. intros z Hz. by eapply compare_trans.
    + apply Z.leb_gt in Hxy. constructor; [by apply IH|].
      rewrite Array_sort_insert_Permutation. constructor; [|done].
      destruct (compare_total x y); [lia|done].
Qed.

Lemma Array_sort_sorted (l : list A) :
  StronglySorted (λ a b, (compare a b ≤ 0)%Z) (Array_sort compare l).
Proof.
  unfold Array_sort. induction l as [|x l IH]; cbn [foldr]; [constructor|].
  by apply Array_sort_insert_sorted.
Qed.

Lemma Array_sort_of_sorted (l : list A) :
  StronglySorted (λ a b, (compare a b ≤ 0)%Z) l → Array_sort compare l = l.
Proof.
  unfold Array_sort. induction l as [|x l IH]; cbn [foldr]; [done|].
  intros [Hl Hx]%StronglySorted_inv. rewrite IH by done.
  destruct l as [|y l]; cbn [Array_sort_insert]; [done|].
  apply Forall_cons in Hx as [Hxy _].
  by rewrite (proj2 (Z.leb_le _ _) Hxy).
Qed.

End ArraySort.

Lemma sortVariables_stable_insert (k : string) (x : VariableAdapter.t)
    (l : list VariableAdapter.t) :
  filter (λ v, VariableAdapter.varname v = k)
    (Array_sort_insert
       (λ var1 var2, compareStrings (VariableAdapter.varname var1)
                       (VariableAdapter.varname var2)) x l)
  = filter (λ v, VariableAdapter.varname v = k) (x :: l).
Proof.
  induction l as [|y l IH]; cbn [Array_sort_insert]; [done|].
  destruct (_ <=? 0)%Z eqn:Hxy; [done|].
  apply Z.leb_gt in Hxy.
  assert (VariableAdapter.varname x ≠ VariableAdapter.varname y) as Hne.
  { intros Heq. rewrite Heq in Hxy.
    rewrite compareStrings_compare, compare_refl in Hxy. lia. }
  rewrite (filter_cons _ y), IH, !filter_cons.
  repeat case_decide; congruence.
Qed.

(** X19.  [sortVariables] rearranges the variables, losing and adding
    none, so that the names never decrease in the order of
    [compareStrings]; variables with the same name keep their order; and
    sorting variables that are already sorted, in particular sorting
    twice, changes nothing. *)
Theorem X19_sortVariables (variables : list VariableAdapter.t) :
  let le_name := λ v1 v2 : VariableAdapter.t,
    (compareStrings (VariableAdapter.varname v1) (VariableAdapter.varname v2) ≤ 0)%Z in
  sortVariables variables ≡ₚ variables
  ∧ StronglySorted le_name (sortVariables variables)
  ∧ (∀ k, filter (λ v, VariableAdapter.varname v = k) (sortVariables variables)
          = filter (λ v, VariableAdapter.varname v = k) variables)
  ∧ (StronglySorted le_name variables → sortVariables variables = variables)
  ∧ sortVariables (sortVariables variables) = sortVariables variables.
Proof.
  cbn zeta. unfold sortVariables.
  set (cmp := λ var1 var2 : VariableAdapter.t,
         compareStrings (VariableAdapter.varname var1) (VariableAdapter.varname var2)).
  assert (∀ x y, (cmp x y ≤ 0)%Z ∨ (cmp y x ≤ 0)%Z) as Htotal.
  { intros x y. unfold cmp.
    rewrite (compareStrings_antisym (VariableAdapter.varname x)). lia. }
  assert (∀ x y z, (cmp x y ≤ 0)%Z → (cmp y z ≤ 0)%Z → (cmp x z ≤ 0)%Z) as Htrans.
  { intros x y z. apply compareStrings_le_trans. }
  split_and!.
  - apply Array_sort_Permutation.
  - by apply Array_sort_sorted.
  - intros k. unfold Array_sort. induction variables as [|x l IH]; [done|].
    cbn [foldr]. unfold cmp at 1.
    rewrite sortVariables_stable_insert, !filter_cons, IH. done.
  - apply Array_sort_of_sorted.
  - apply Array_sort_of_sorted. by apply Array_sort_sorted.
Qed.

(** ** Attaching to a thread *)

Lemma bind_resolved {W A B} (m : M W A) (k : A → M W B) (w w' : W) (a : A) :
  m w = (Resolved a, w') → bind m k w = k a w'.
Proof. intros H. unfold bind. by rewrite H. Qed.

Lemma bind_rejected {W A B} (m : M W A) (k : A → M W B) (w w' : W) (err : string) :
  m w = (Rejected err, w') → bind m k w = (Rejected err, w').
Proof. intros H. unfold bind. by rewrite H. Qed.

Lemma catch_resolved {W A} (m : M W A) (h : string → M W A) (w w' : W) (a : A) :
  m w = (Resolved a, w') → catch m h w = (Resolved a, w').
Proof. intros H. unfold catch. by rewrite H. Qed.

Lemma catch_rejected {W A} (m : M W A) (h : string → M W A) (w w' : W) (err : string) :
  m w = (Rejected err, w') → catch m h w = h err w'.
Proof. intros H. unfold catch. by rewrite H. Qed.

(** X20.  How [init] deals with failure.  If the pause coordinator refuses
    the interrupt, [init] is rejected with that error and calls nothing
    else.  If attaching fails, or if attaching succeeds and telling the
    pause coordinator so throws, the pause coordinator is told that the
    interrupt failed, and [init] is rejected with the error: sources are
    not fetched and the thread is not resumed.  If telling the pause
    coordinator of the failure throws as well, that second error is the
    one [init] is rejected with.  When everything succeeds [init]
    resolves, without using the console unless [reload] is set; with
    [reload] set on a thread without console it is rejected with a
    [TypeError], after the thread has been resumed. *)
Theorem X20_init_failures {S ExceptionBreakpoints : Type} (Number : Type)
    (Number_toString : Number → string)
    (c : InitCollaborators S ExceptionBreakpoints)
    (consoleActor : option (string → option string → outcome (option (Grip Number))))
    (id : nat) (name : string) (exceptionBreakpoints : ExceptionBreakpoints)
    (reload : bool) (w0 w1 : World * S)
    (H0 : coordinator_setExceptionBreakpoints c exceptionBreakpoints w0
          = (Resolved tt, w1)) :
  let run := init Number Number_toString c consoleActor id name
               exceptionBreakpoints reload w0 in
  (∀ err w2,
     pauseCoordinator_requestInterrupt c id name "auto" w1 = (Rejected err, w2) →
     run = (Rejected err, w2))
  ∧ (∀ w2, pauseCoordinator_requestInterrupt c id name "auto" w1 = (Resolved tt, w2) →
     (∀ err w3 w4,
        actor_attach c w2 = (Rejected err, w3) →
        pauseCoordinator_notifyInterruptFailed c id name w3 = (Resolved tt, w4) →
        run = (Rejected err, w4))
     ∧ (∀ err err' w3 w4,
          actor_attach c w2 = (Rejected err, w3) →
          pauseCoordinator_notifyInterruptFailed c id name w3 = (Rejected err', w4) →
          run = (Rejected err', w4))
     ∧ (∀ err w3 w4 w5,
          actor_attach c w2 = (Resolved tt, w3) →
          pauseCoordinator_notifyInterrupted c id name "auto" w3 = (Rejected err, w4) →
          pauseCoordinator_notifyInterruptFailed c id name w4 = (Resolved tt, w5) →
          run = (Rejected err, w5))
     ∧ (∀ w3 w4 w5 w6,
          actor_attach c w2 = (Resolved tt, w3) →
          pauseCoordinator_notifyInterrupted c id name "auto" w3 = (Resolved tt, w4) →
          actor_fetchSources c w4 = (Resolved tt, w5) →
          coordinator_resume c w5 = (Resolved tt, w6) →
          (reload = false → run = (Resolved tt, w6))
          ∧ (reload = true → consoleActor = None →
             run = (Rejected "TypeError", w6)))).
Proof.
  cbn zeta. unfold init. rewrite (bind_resolved _ _ _ _ _ H0). split.
  - intros err w2 H1. by rewrite (bind_rejected _ _ _ _ _ H1).
  - intros w2 H1. rewrite (bind_resolved _ _ _ _ _ H1). split_and!.
    + intros err w3 w4 H2 H3. apply bind_rejected.
      erewrite catch_rejected; [|by apply bind_rejected].
      by rewrite (bind_resolved _ _ _ _ _ H3).
    + intros err err' w3 w4 H2 H3. apply bind_rejected.
      erewrite catch_rejected; [|by apply bind_rejected].
      by rewrite (bind_rejected _ _ _ _ _ H3).
    + intros err w3 w4 w5 H2 H3 H4. apply bind_rejected.
      erewrite catch_rejected; [|by rewrite (bind_resolved _ _ _ _ _ H2)].
      by rewrite (bind_resolved _ _ _ _ _ H4).
    + intros w3 w4 w5 w6 H2 H3 H4 H5.
      erewrite bind_resolved;
        [|erewrite catch_resolved; [done|by rewrite (bind_resolved _ _ _ _ _ H2)]].
      rewrite (bind_resolved _ _ _ _ _ H4), (bind_resolved _ _ _ _ _ H5).
      split.
      * by intros ->.
      * intros -> ->. unfold bind, on_thread. cbn. by destruct w6.
Qed.

Lemma X20_init_failures_witness :
  let w0 : World * list string := (new_World, []) in
  coordinator_setExceptionBreakpoints logging_collaborators tt w0
  = (Resolved tt, (new_World, ["setExceptionBreakpoints"]))
  ∧ init Z Integer_toString logging_collaborators None 7 "Tab" tt true w0
    = (Rejected "exited",
       (new_World, ["setExceptionBreakpoints"; "requestInterrupt"; "attach";
                    "notifyInterruptFailed"])).
Proof.
  intros w0.
  assert (coordinator_setExceptionBreakpoints logging_collaborators tt w0
          = (Resolved tt, (new_World, ["setExceptionBreakpoints"]))) as H
    by reflexivity.
  split; [exact H|].
  refine (proj1 (proj2 (X20_init_failures Z Integer_toString logging_collaborators
                          None 7 "Tab" tt true w0 _ H) _ _) "exited" _ _ _ _);
    reflexivity.
Defined.

(** ** What the post-actions send *)

Lemma extendLifetime_caught (peer : Peer) (a : ObjectGripAdapter.t) (w : World) :
  catch (extendLifetime peer a) (λ err, ret tt) w
  = (Resolved tt, emit (ExtendLifetimeRequested (ObjectGripAdapter.actorName a)) w).
Proof.
  unfold catch, extendLifetime, bind, modify.
  by destruct (extendLifetime_reply peer _).
Qed.

Lemma all_extendLifetime_caught (peer : Peer) (l : list ObjectGripAdapter.t)
    (w : World) :
  all (λ objectGripAdapter,
         catch (extendLifetime peer objectGripAdapter) (λ err, ret tt)) l w
  = (Resolved (replicate (length l) tt), with_extend_requests l w).
Proof.
  revert w. induction l as [|a l IH]; intros w.
  - cbn. unfold ret, with_extend_requests. cbn. rewrite app_nil_r. by destruct w.
  - cbn [all]. rewrite extendLifetime_caught. unfold bind. rewrite IH. cbn.
    unfold with_extend_requests, emit. cbn. by rewrite <- app_assoc.
Qed.

(** X21.  What the post-actions ask of the peer.  After fetching frames,
    one lifetime extension is requested for every object grip proxy of
    every frame, frame by frame; after fetching variables, one for every
    variable that has an object grip proxy, in the order of the variables,
    and none at all when the variables provider is thread-lifetime.  Both
    resolve and change nothing but the journal, whatever the peer answers.
    After an evaluation one extension is requested if the result has an
    object grip proxy, and none otherwise. *)
Theorem X21_postAction_requests (peer : Peer) (w : World) :
  (∀ frameAdapters,
     fetchAllStackFrames_postAction peer frameAdapters w
     = (Resolved tt,
        with_extend_requests
          (concat (FrameAdapter.getObjectGripAdapters <$> frameAdapters)) w))
  ∧ (∀ variableAdapters,
       fetchVariables_postAction peer false variableAdapters w
       = (Resolved tt,
          with_extend_requests
            (omap VariableAdapter.objectGripAdapter variableAdapters) w))
  ∧ (∀ variableAdapters,
       fetchVariables_postAction peer true variableAdapters w = (Resolved tt, w))
  ∧ (∀ variableAdapter,
       (evaluate_postAction peer variableAdapter w).2
       = with_extend_requests
           (option_list (VariableAdapter.objectGripAdapter variableAdapter)) w
       ∧ (VariableAdapter.objectGripAdapter variableAdapter = None →
          evaluate_postAction peer variableAdapter w = (Resolved tt, w))).
Proof.
  split_and!.
  - intros fas. unfold fetchAllStackFrames_postAction, bind.
    by rewrite all_extendLifetime_caught.
  - intros vas. unfold fetchVariables_postAction. cbn [negb]. unfold bind.
    by rewrite all_extendLifetime_caught.
  - done.
  - intros [name value [a|]]; unfold evaluate_postAction; cbn.
    + split; [|done]. unfold extendLifetime, bind, modify.
      by destruct (extendLifetime_reply peer _).
    + unfold with_extend_requests. cbn. rewrite app_nil_r. by destruct w.
Qed.
